(** * go-cache: a fixed-capacity LRU cache over a circular doubly linked list

    Shallow embedding of package [cache]: the [LruCache] over [cacheNode]
    (its earlier revision over [CacheNode] is kept in [Module
    CacheNodeVariant]), the test helper [verifyIntegrity], and the
    interactive demo [runInteractiveMode] of package [main].

    Go pointers to nodes are addresses into an explicit node heap; [nil] is
    [None].  Every method of [*LruCache] becomes a computation in a small
    state-and-fault monad over the pair (cache struct, node heap).  A nil
    dereference, which panics in Go, is the fault [NilDeref]. *)

From Stdlib Require Import ZArith.
From stdpp Require Import gmap strings list fin_maps.

#[local] Set Warnings "-clear-no-such-hyp".

(** ** Data model *)

Abbreviation loc := nat.

(** [type cacheNode struct { prev, next *cacheNode; value, key string }] *)
Record cacheNode := mkNode {
  prev  : option loc;
  next  : option loc;
  value : string;
  key   : string
}.

(** The zero value that [var node cacheNode] starts from. *)
Definition zeroNode : cacheNode := mkNode None None "" "".

(** [sync.Mutex], reduced to what a sequential run observes: whether it is
    held, and the calls made on it so far. *)
Inductive MutexEvent := EvLock | EvUnlock.

Record Mutex := mkMutex {
  locked  : bool;
  history : list MutexEvent
}.

(** [type LruCache struct { mutex *sync.Mutex; head *cacheNode; capacity int;
    store map[string]*cacheNode }].  The mutex pointer is set once in
    [NewCache] and never shared, so the struct carries the mutex itself. *)
Record LruCache := mkCache {
  mutex    : Mutex;
  head     : option loc;
  capacity : Z;
  store    : gmap string nat
}.

Record State := mkState {
  cache : LruCache;
  heap  : gmap nat cacheNode
}.

Inductive fault :=
| NilDeref          (* dereference of a nil *cacheNode *)
| Dangling          (* address without a node: never produced by Go itself *)
| Blocked           (* Lock on a mutex that is already held *)
| UnlockOfUnlocked. (* Unlock on a mutex that is not held *)

Inductive Result (A : Type) :=
| Ok (a : A) (s : State)
| Fault (f : fault).
Arguments Ok {A} a s.
Arguments Fault {A} f.

Definition M (A : Type) : Type := State -> Result A.

Definition ret {A} (a : A) : M A := fun s => Ok a s.

Definition bind {A B} (m : M A) (k : A -> M B) : M B :=
  fun s => match m s with
           | Ok a s' => k a s'
           | Fault f => Fault f
           end.

Notation "'do' x <- m ; k" := (bind m (fun x => k))
  (at level 20, x name, m at level 100, k at level 200).
Notation "m ;; k" := (bind m (fun _ => k))
  (at level 100, k at level 200, right associativity).

(** ** Primitive accesses *)

Definition withHeap (f : gmap nat cacheNode -> gmap nat cacheNode) (s : State) : State :=
  mkState (cache s) (f (heap s)).

Definition withCache (f : LruCache -> LruCache) (s : State) : State :=
  mkState (f (cache s)) (heap s).

Definition load (p : option loc) : M cacheNode :=
  fun s => match p with
           | None => Fault NilDeref
           | Some a => match heap s !! a with
                       | Some n => Ok n s
                       | None => Fault Dangling
                       end
           end.

Definition update (p : option loc) (f : cacheNode -> cacheNode) : M unit :=
  do n <- load p;
  fun s => match p with
           | Some a => Ok tt (withHeap (insert a (f n)) s)
           | None => Fault NilDeref
           end.

(** [var node cacheNode] whose address escapes: a fresh heap cell. *)
Definition alloc : M loc :=
  fun s => let a := fresh (dom (heap s)) in
           Ok a (withHeap (insert a zeroNode) s).

Definition getPrev (p : option loc) : M (option loc) := do n <- load p; ret (prev n).
Definition getNext (p : option loc) : M (option loc) := do n <- load p; ret (next n).
Definition getValue (p : option loc) : M string := do n <- load p; ret (value n).
Definition getKey (p : option loc) : M string := do n <- load p; ret (key n).

Definition setPrev (p x : option loc) : M unit :=
  update p (fun n => mkNode x (next n) (value n) (key n)).
Definition setNext (p x : option loc) : M unit :=
  update p (fun n => mkNode (prev n) x (value n) (key n)).
Definition setValue (p : option loc) (v : string) : M unit :=
  update p (fun n => mkNode (prev n) (next n) v (key n)).
Definition setKey (p : option loc) (k : string) : M unit :=
  update p (fun n => mkNode (prev n) (next n) (value n) k).

Definition getHead : M (option loc) := fun s => Ok (head (cache s)) s.
Definition setHead (h : option loc) : M unit :=
  fun s => Ok tt (withCache (fun c => mkCache (mutex c) h (capacity c) (store c)) s).

Definition getCapacity : M Z := fun s => Ok (capacity (cache s)) s.

Definition storeLookup (k : string) : M (option loc) :=
  fun s => Ok (store (cache s) !! k) s.
Definition storeInsert (k : string) (p : loc) : M unit :=
  fun s => Ok tt (withCache (fun c => mkCache (mutex c) (head c) (capacity c) (<[k := p]> (store c))) s).
Definition storeDelete (k : string) : M unit :=
  fun s => Ok tt (withCache (fun c => mkCache (mutex c) (head c) (capacity c) (delete k (store c))) s).
(** [len(cache.store)] as a Go [int]. *)
Definition storeLen : M Z := fun s => Ok (Z.of_nat (size (store (cache s)))) s.

Definition withMutex (f : Mutex -> Mutex) (s : State) : State :=
  withCache (fun c => mkCache (f (mutex c)) (head c) (capacity c) (store c)) s.

(** [cache.mutex.Lock()] *)
Definition Lock : M unit :=
  fun s => if locked (mutex (cache s)) then Fault Blocked
           else Ok tt (withMutex (fun m => mkMutex true (history m ++ [EvLock])) s).

(** [cache.mutex.Unlock()] *)
Definition Unlock : M unit :=
  fun s => if locked (mutex (cache s))
           then Ok tt (withMutex (fun m => mkMutex false (history m ++ [EvUnlock])) s)
           else Fault UnlockOfUnlocked.

(** [cache.mutex.Lock(); defer cache.mutex.Unlock(); body].  The deferred
    call runs on every return of [body]; when [body] panics the panic is what
    the caller sees. *)
Definition locking {A} (body : M A) : M A :=
  Lock ;; do r <- body; Unlock ;; ret r.

(** ** Internal functions *)

(** [addToHead] creates a new node and makes it the head of the list. *)
Definition addToHead (key value : string) : M loc :=
  do node <- alloc;
  setValue (Some node) value ;;
  setKey (Some node) key ;;
  do h <- getHead;
  match h with
  | None =>
      setNext (Some node) (Some node) ;;
      setPrev (Some node) (Some node)
  | Some _ =>
      setNext (Some node) h ;;
      (do hp <- getPrev h; setPrev (Some node) hp) ;;
      (do hp <- getPrev h; setNext hp (Some node)) ;;
      setPrev h (Some node)
  end ;;
  setHead (Some node) ;;
  ret node.

(** [addToTail]: [addToHead], then the head moves one step on. *)
Definition addToTail (key value : string) : M loc :=
  do node <- addToHead key value;
  (do h <- getHead; do hn <- getNext h; setHead hn) ;;
  ret node.

(** [removeFromList] unlinks [node]. *)
Definition removeFromList (node : option loc) : M unit :=
  do nn <- getNext node;
  if decide (nn = node) then setHead None
  else
    (do h <- getHead;
     if decide (node = h) then (do nn <- getNext node; setHead nn) else ret tt) ;;
    (do np <- getPrev node; do nn <- getNext node; setNext np nn) ;;
    (do nn <- getNext node; do np <- getPrev node; setPrev nn np).

(** ** Public functions

    Each of [Get], [Set] and [Delete] is [locking] applied to the rest of its
    body, named [_locked] here. *)

(** [Get] retrieves a value by its key, like [value, ok := m[key]]. *)
Definition Get_locked (key : string) : M (string * bool) :=
  do node <- storeLookup key;
  match node with
  | None => ret (""%string, false)
  | Some _ =>
      removeFromList node ;;
      do v <- getValue node;
      do newNode <- addToHead key v;
      storeInsert key newNode ;;
      do v' <- getValue node;
      ret (v', true)
  end.

Definition Get (key : string) : M (string * bool) := locking (Get_locked key).

(** [Set] adds or updates a pair: new elements go to the tail, updated
    elements keep their place.  ([Set] is a keyword here, hence [Set_].) *)
Definition Set_locked (key value : string) : M bool :=
  do existing <- storeLookup key;
  match existing with
  | Some _ => setValue existing value ;; ret true
  | None =>
      (do n <- storeLen;
       do c <- getCapacity;
       if decide (n = c) then
         do h <- getHead;
         do tail <- getPrev h;
         removeFromList tail ;;
         do tk <- getKey tail;
         storeDelete tk
       else ret tt) ;;
      do node <- addToTail key value;
      storeInsert key node ;;
      ret false
  end.

Definition Set_ (key value : string) : M bool := locking (Set_locked key value).

(** [Delete] removes the item of [key]; true when there was one. *)
Definition Delete_locked (key : string) : M bool :=
  do existing <- storeLookup key;
  match existing with
  | None => ret false
  | Some _ =>
      removeFromList existing ;;
      do k <- getKey existing;
      storeDelete k ;;
      ret true
  end.

Definition Delete (key : string) : M bool := locking (Delete_locked key).

(** [Capacity] and [Len] read the struct without touching the mutex. *)
Definition Capacity : M Z := getCapacity.
Definition Len : M Z := storeLen.

Inductive error := InvalidCapacity (msg : string).

(** [NewCache]: the struct it returns, together with a heap holding no node. *)
Definition NewCache (capacity : Z) : error + State :=
  if decide (capacity ≤ 0)%Z then inl (InvalidCapacity "capacity must be greater than 0")
  else inr (mkState (mkCache (mkMutex false []) None capacity ∅) ∅).

(** ** The earlier revision of the file ([CacheNode], exported node type)

    Its [addToHead], [addToTail], [removeFromList], [Set], [Capacity] and
    [NewCache] are the same text as above up to the node type's name, so
    they are shared.  [Get] passes its own, still empty, result variable
    [value] to [addToHead]; [Delete] also returns the removed value; there
    is no [Len]. *)
Module CacheNodeVariant.

Definition Get_locked (key : string) : M (string * bool) :=
  let value := ""%string in
  do node <- storeLookup key;
  match node with
  | None => ret (""%string, false)
  | Some _ =>
      removeFromList node ;;
      do newNode <- addToHead key value;
      storeInsert key newNode ;;
      do v' <- getValue node;
      ret (v', true)
  end.

Definition Get (key : string) : M (string * bool) := locking (Get_locked key).

Definition Delete_locked (key : string) : M (string * bool) :=
  do existing <- storeLookup key;
  match existing with
  | None => ret (""%string, false)
  | Some _ =>
      removeFromList existing ;;
      do k <- getKey existing;
      storeDelete k ;;
      do v <- getValue existing;
      ret (v, true)
  end.

Definition Delete (key : string) : M (string * bool) := locking (Delete_locked key).

End CacheNodeVariant.

(** Running a script of calls from the result of [NewCache]. *)
Definition run {A} (m : M A) (s : error + State) : option (A * State) :=
  match s with
  | inr s => match m s with Ok a s' => Some (a, s') | Fault _ => None end
  | inl _ => None
  end.

Definition result {A} (m : M A) (s : error + State) : option A :=
  fst <$> run m s.

(** ** Views, invariants and the list model *)

(** The fields of the node at an address, [None] when there is no node (or,
    for the two pointers, when the pointer is nil). *)
Definition nextOf (h : gmap nat cacheNode) (a : loc) : option loc := h !! a ≫= next.
Definition prevOf (h : gmap nat cacheNode) (a : loc) : option loc := h !! a ≫= prev.
Definition keyOf (h : gmap nat cacheNode) (a : loc) : option string := key <$> h !! a.
Definition valueOf (h : gmap nat cacheNode) (a : loc) : option string := value <$> h !! a.

(** Everything of the struct but [head]. *)
Definition sameFields (c c' : LruCache) : Prop :=
  mutex c' = mutex c ∧ capacity c' = capacity c ∧ store c' = store c.

(** Neighbours in a list, and in a list closed into a ring. *)
Fixpoint path (l : list loc) : list (loc * loc) :=
  match l with
  | x :: (y :: _) as r => (x, y) :: path r
  | _ => []
  end.

Definition cyc (l : list loc) : list (loc * loc) :=
  match l with
  | [] => []
  | x :: _ => path (l ++ [x])
  end.

(** [b] follows [a]: [a.next == b] and [b.prev == a]. *)
Definition linked (h : gmap nat cacheNode) (e : loc * loc) : Prop :=
  nextOf h e.1 = Some e.2 ∧ prevOf h e.2 = Some e.1.

(** A node of the list: its address with the key and value it holds. *)
Abbreviation entry := (loc * (string * string))%type.

Definition holds (h : gmap nat cacheNode) (e : entry) : Prop :=
  keyOf h e.1 = Some e.2.1 ∧ valueOf h e.1 = Some e.2.2.

(** The nodes [ns], in this order from [hd], form the circular doubly
    linked list. *)
Record Ring (h : gmap nat cacheNode) (hd : option loc) (ns : list entry) : Prop := mkRing {
  ring_nodup : NoDup ns.*1;
  ring_links : Forall (linked h) (cyc ns.*1);
  ring_data  : Forall (holds h) ns;
  ring_head  : hd = ns.*1 !! 0%nat
}.

(** The state once [Lock], respectively [Unlock], has returned. *)
Definition lockSt (s : State) : State :=
  withMutex (fun m => mkMutex true (history m ++ [EvLock])) s.
Definition unlockSt (s : State) : State :=
  withMutex (fun m => mkMutex false (history m ++ [EvUnlock])) s.

(** List and map agree: the store maps exactly the keys of the ring's
    nodes, each to its node, and the capacity bounds their number. *)
Record Coh (s : State) (ns : list entry) : Prop := mkCoh {
  coh_ring  : Ring (heap s) (head (cache s)) ns;
  coh_store : ∀ k a, store (cache s) !! k = Some a ↔ ∃ v, (a, (k, v)) ∈ ns;
  coh_size  : size (store (cache s)) = length ns;
  coh_cap   : (Z.of_nat (length ns) ≤ capacity (cache s))%Z;
  coh_pos   : (0 < capacity (cache s))%Z
}.

(** The list model: what the three public functions do, told on the list of
    key/value pairs read from the head.  The proofs below show that the code
    computes exactly this on [contents]. *)
Fixpoint alookup (k : string) (es : list (string * string)) : option string :=
  match es with
  | [] => None
  | (k', v) :: r => if decide (k' = k) then Some v else alookup k r
  end.

Fixpoint aremove (k : string) (es : list (string * string)) : list (string * string) :=
  match es with
  | [] => []
  | (k', v) :: r => if decide (k' = k) then r else (k', v) :: aremove k r
  end.

Fixpoint aupdate (k v : string) (es : list (string * string)) : list (string * string) :=
  match es with
  | [] => []
  | (k', v') :: r => if decide (k' = k) then (k, v) :: r else (k', v') :: aupdate k v r
  end.

Definition aGet (k : string) (es : list (string * string))
  : (string * bool) * list (string * string) :=
  match alookup k es with
  | None => ((""%string, false), es)
  | Some v => ((v, true), (k, v) :: aremove k es)
  end.

Definition aSet (cap : Z) (k v : string) (es : list (string * string))
  : bool * list (string * string) :=
  match alookup k es with
  | Some _ => (true, aupdate k v es)
  | None =>
      (false, (if decide (Z.of_nat (length es) = cap) then removelast es else es) ++ [(k, v)])
  end.

Definition aDelete (k : string) (es : list (string * string))
  : bool * list (string * string) :=
  match alookup k es with
  | None => (false, es)
  | Some _ => (true, aremove k es)
  end.

(** The struct after [delete(cache.store, k)], respectively
    [cache.store[k] = a]. *)
Definition delStore (k : string) (c : LruCache) : LruCache :=
  mkCache (mutex c) (head c) (capacity c) (delete k (store c)).
Definition insStore (k : string) (a : loc) (c : LruCache) : LruCache :=
  mkCache (mutex c) (head c) (capacity c) (<[k := a]> (store c)).

(** Following [next] for [n] steps from [p], collecting the nodes met. *)
Fixpoint walk (h : gmap nat cacheNode) (n : nat) (p : option loc) : list loc :=
  match n, p with
  | S n', Some a => a :: walk h n' (nextOf h a)
  | _, _ => []
  end.

(** The nodes of the list from the head, one per stored key. *)
Definition order (s : State) : list loc :=
  walk (heap s) (size (store (cache s))) (head (cache s)).

(** The key and value of the node at an address. *)
Definition entryOf (h : gmap nat cacheNode) (a : loc) : option (string * string) :=
  n ← h !! a; Some (key n, value n).

(** Keys and values in list order, most recently used first. *)
Definition contents (s : State) : list (string * string) :=
  omap (entryOf (heap s)) (order s).

(** The integrity invariant: size within capacity; nil head exactly on an
    empty store; the walk from the head meets [len(store)] distinct nodes and
    the last of them points back to the head; around each of them the two
    directions agree; every key of the store maps to a node of the walk that
    carries this key. *)
Definition integrity (s : State) : Prop :=
  let h := heap s in
  let c := cache s in
  (Z.of_nat (size (store c)) ≤ capacity c)%Z
  ∧ (head c = None ↔ store c = ∅)
  ∧ length (order s) = size (store c)
  ∧ NoDup (order s)
  ∧ (∀ t, last (order s) = Some t → nextOf h t = head c)
  ∧ (∀ n, n ∈ order s →
       ∃ nx pv, nextOf h n = Some nx ∧ prevOf h nx = Some n
              ∧ prevOf h n = Some pv ∧ nextOf h pv = Some n)
  ∧ (∀ k a, store c !! k = Some a → keyOf h a = Some k ∧ a ∈ order s).

(** The states of a cache built by [NewCache] and used through its public
    functions only. *)
Inductive reachable : State → Prop :=
| reach_NewCache capacity s : NewCache capacity = inr s → reachable s
| reach_Get k r s s' : reachable s → Get k s = Ok r s' → reachable s'
| reach_Set k v r s s' : reachable s → Set_ k v s = Ok r s' → reachable s'
| reach_Delete k r s s' : reachable s → Delete k s = Ok r s' → reachable s'.

(** One locked call went from [s] to [s']. *)
Definition ranOnce (s s' : State) : Prop :=
  locked (mutex (cache s')) = false
  ∧ history (mutex (cache s')) = history (mutex (cache s)) ++ [EvLock; EvUnlock]
  ∧ capacity (cache s') = capacity (cache s).

(** [Set] of each pair in turn. *)
Fixpoint setAll (kvs : list (string * string)) : M unit :=
  match kvs with
  | [] => ret tt
  | (k, v) :: r => Set_ k v ;; setAll r
  end.

(** [setAll] in the list model. *)
Definition aSetAll (cap : Z) (kvs es : list (string * string)) : list (string * string) :=
  foldl (fun es kv => (aSet cap kv.1 kv.2 es).2) es kvs.

(** [m] returns [r] from [s]. *)
Definition yields {A} (m : M A) (s : State) (r : A) : Prop := ∃ s', m s = Ok r s'.


(** [m] never changes the mutex. *)
Definition keepsMutex {A} (m : M A) : Prop :=
  ∀ s r s', m s = Ok r s' → mutex (cache s') = mutex (cache s).

(** Everything but the mutex's history is the same in both states. *)
Definition sameButHistory (s s' : State) : Prop :=
  head (cache s') = head (cache s)
  ∧ store (cache s') = store (cache s)
  ∧ capacity (cache s') = capacity (cache s)
  ∧ heap s' = heap s
  ∧ locked (mutex (cache s')) = locked (mutex (cache s)).

(** The call sequences of the examples, on a cache of capacity 2. *)
Definition script1 : M _ :=
  Set_ "a" "1" ;; Set_ "b" "2" ;; Set_ "c" "3" ;;
  do a <- Get "a"; do b <- Get "b"; do c <- Get "c"; ret (a, b, c).

Definition script2 : M _ :=
  Set_ "a" "1" ;; Set_ "b" "2" ;; Set_ "a" "9" ;; Set_ "c" "3" ;;
  do a <- Get "a"; do b <- Get "b"; do c <- Get "c"; ret (a, b, c).

Definition script5 : M _ :=
  Set_ "a" "1" ;; Set_ "b" "2" ;; Get "a" ;; Set_ "c" "3" ;;
  do a <- Get "a"; do b <- Get "b"; do c <- Get "c"; ret (a, b, c).

(** Concrete states: the result of [NewCache 2], then of [Set("a", "1")],
    then of [Set("b", "2")]. *)
Definition after {A} (m : M A) (s : State) : State :=
  match m s with Ok _ s' => s' | Fault _ => s end.

Definition demo0 : State := mkState (mkCache (mkMutex false []) None 2 ∅) ∅.
Definition demo1 : State := after (Set_ "a" "1") demo0.
Definition demo2 : State := after (Set_ "b" "2") demo1.

(** One [Set] and two reads of the same key, for either revision of [Get]. *)
Definition scriptGetTwice (get : string → M (string * bool)) : M _ :=
  Set_ "a" "1" ;; do x <- get "a"; do y <- get "a"; ret (x, y).

(** The errors of [verifyIntegrity], one per [fmt.Errorf] of the function;
    [LoopBudget] stands for a round of the loop that the function's own
    bound on [nodeCount] never lets start. *)
Inductive integrityError :=
| NonNilHeadOnEmpty
| SizeExceedsCapacity
| UnexpectedNil
| ListSizeMismatch
| NilPointer
| BrokenNextPrev
| BrokenPrevNext
| NotInStore (k : string)
| StorePointsElsewhere (k : string)
| MoreNodesThanStore
| NotInList
| BadAddress
| LoopBudget.

(** The [for] loop of [verifyIntegrity]; [fuel] bounds its rounds. *)
Fixpoint verifyLoop (fuel : nat) (s : State) (visited : gset nat) (nodeCount : nat)
    (current : option loc) : integrityError + gset nat :=
  match fuel with
  | O => inl LoopBudget
  | S fuel' =>
      match current with
      | None => inl UnexpectedNil
      | Some cur =>
          if decide (cur ∈ visited) then
            if decide (nodeCount = size (store (cache s))) then inr visited
            else inl ListSizeMismatch
          else
            match nextOf (heap s) cur, prevOf (heap s) cur with
            | Some nx, Some pv =>
                if decide (prevOf (heap s) nx = Some cur) then
                  if decide (nextOf (heap s) pv = Some cur) then
                    match keyOf (heap s) cur with
                    | None => inl BadAddress
                    | Some k =>
                        match store (cache s) !! k with
                        | None => inl (NotInStore k)
                        | Some storeNode =>
                            if decide (storeNode = cur) then
                              if decide (size (store (cache s)) < S nodeCount)%nat
                              then inl MoreNodesThanStore
                              else verifyLoop fuel' s ({[cur]} ∪ visited) (S nodeCount) (Some nx)
                            else inl (StorePointsElsewhere k)
                        end
                    end
                  else inl BrokenPrevNext
                else inl BrokenNextPrev
            | _, _ => inl NilPointer
            end
      end
  end.

(** [verifyIntegrity]: [None] is the [nil] error. *)
Definition verifyIntegrity (s : State) : option integrityError :=
  let c := cache s in
  if decide (size (store c) = 0%nat) then
    match head c with Some _ => Some NonNilHeadOnEmpty | None => None end
  else if decide (capacity c < Z.of_nat (size (store c)))%Z then Some SizeExceedsCapacity
  else
    match verifyLoop (S (size (store c))) s ∅ 0 (head c) with
    | inl e => Some e
    | inr visited =>
        if decide (map_Forall (fun _ node => node ∈ visited) (store c)) then None
        else Some NotInList
    end.

(** What the tests check after each call: the invariant as a proposition,
    and the test helper returning no error. *)
Definition sound (s : State) : Prop := integrity s ∧ verifyIntegrity s = None.

(** [s'] comes from [s] by calls of [Get], [Set] and [Delete]. *)
Inductive calls : State → State → Prop :=
| calls_none s : calls s s
| calls_Get k r s s1 s2 : calls s s1 → Get k s1 = Ok r s2 → calls s s2
| calls_Set k v r s s1 s2 : calls s s1 → Set_ k v s1 = Ok r s2 → calls s s2
| calls_Delete k r s s1 s2 : calls s s1 → Delete k s1 = Ok r s2 → calls s s2.

(** The nodes at the addresses [l], each with the pair it holds. *)
Definition entries (h : gmap nat cacheNode) (l : list loc) : list entry :=
  omap (λ a, pair a <$> entryOf h a) l.

(** The earlier revision's [Get] and [Delete] in the list model: a hit of
    [Get] puts the key at the head with the empty string for its value;
    [Delete] also returns the value it removes. *)
Definition aGetV (k : string) (es : list (string * string))
  : (string * bool) * list (string * string) :=
  match alookup k es with
  | None => ((""%string, false), es)
  | Some v => ((v, true), (k, ""%string) :: aremove k es)
  end.

Definition aDeleteV (k : string) (es : list (string * string))
  : (string * bool) * list (string * string) :=
  match alookup k es with
  | None => ((""%string, false), es)
  | Some v => ((v, true), aremove k es)
  end.

(** The states of a cache of the earlier revision: built by [NewCache], used
    through its [Get], [Set] and [Delete]. *)
Inductive reachableV : State → Prop :=
| reachV_NewCache capacity s : NewCache capacity = inr s → reachableV s
| reachV_Get k r s s' :
    reachableV s → CacheNodeVariant.Get k s = Ok r s' → reachableV s'
| reachV_Set k v r s s' : reachableV s → Set_ k v s = Ok r s' → reachableV s'
| reachV_Delete k r s s' :
    reachableV s → CacheNodeVariant.Delete k s = Ok r s' → reachableV s'.

(** ** The interactive demo ([main.go])
    Standard input is the list of lines that the [bufio.Scanner] yields, and
    standard output the list of strings printed, one per call of [fmt]. *)
(** The newline that [fmt.Println] adds and the prompts start with. *)
Definition nl : string :=
  String (Ascii.Ascii false true false true false false false false) EmptyString.

(** [scanner.Scan(); scanner.Text()] on the lines standard input still
    holds: the next line, or, when none is left, the empty string ([Scan]
    then returns false, which [runInteractiveMode] never looks at). *)
Definition scanText (input : list string) : string * list string :=
  match input with
  | [] => (""%string, [])
  | line :: rest => (line, rest)
  end.

Definition promptSize : string := nl +:+ "Enter Cache Size: ".
Definition promptCommand : string :=
  nl +:+ "Enter command ((s)et/(g)et/(d)elete/(q)uit): ".

(** One round of the first [for] of [runInteractiveMode]: [Created] is its
    [break], [AskAgain] its [continue] and its falling through to the next
    round.  [atoi] is [strconv.Atoi], [None] standing for its error. *)
Inductive sizeRoundResult :=
| Created (s : State) (input out : list string)
| AskAgain (input out : list string).

Definition sizeRound (atoi : string → option Z) (input out : list string)
  : sizeRoundResult :=
  let out := out ++ [promptSize] in
  let (cmd, input) := scanText input in
  match atoi cmd with
  | None => AskAgain input (out ++ [cmd +:+ " is not a number!"])
  | Some i =>
      match NewCache i with
      | inr s => Created s input out
      | inl (InvalidCapacity msg) =>
          AskAgain input (out ++ ["Error Creating Cache: " +:+ msg])
      end
  end.

(** The first [for]; [rounds] bounds the rounds that are run, [None] is a
    loop still going after that many. *)
Fixpoint sizeLoop (atoi : string → option Z) (rounds : nat) (input out : list string)
  : option (State * list string * list string) :=
  match rounds with
  | O => None
  | S rounds' =>
      match sizeRound atoi input out with
      | Created s input out => Some (s, input, out)
      | AskAgain input out => sizeLoop atoi rounds' input out
      end
  end.

(** One round of the second [for]: [Again] goes to the next round,
    [Quit] is the [return] of case "q", [Panic] a panic inside a call on the
    cache. *)
Inductive commandRoundResult :=
| Again (s : State) (input out : list string)
| Quit (s : State) (input out : list string)
| Panic (f : fault) (out : list string).

Definition commandRound (s : State) (input out : list string) : commandRoundResult :=
  let out := out ++ [promptCommand] in
  let (cmd, input) := scanText input in
  if decide (cmd = "q"%string) then Quit s input out
  else if decide (cmd = "s"%string) then
    let out := out ++ ["Enter key: "%string] in
    let (key, input) := scanText input in
    let out := out ++ ["Enter value: "%string] in
    let (value, input) := scanText input in
    match Set_ key value s with
    | Ok _ s' => Again s' input (out ++ ["Value set successfully" +:+ nl])
    | Fault f => Panic f out
    end
  else if decide (cmd = "g"%string) then
    let out := out ++ ["Enter key: "%string] in
    let (key, input) := scanText input in
    match Get key s with
    | Ok (value, exists_) s' =>
        if exists_ then Again s' input (out ++ ["Value: " +:+ value +:+ nl])
        else Again s' input (out ++ ["Key not found" +:+ nl])
    | Fault f => Panic f out
    end
  else if decide (cmd = "d"%string) then
    let out := out ++ ["Enter key: "%string] in
    let (key, input) := scanText input in
    match Delete key s with
    | Ok deleted s' =>
        if deleted then Again s' input (out ++ ["Key deleted successfully" +:+ nl])
        else Again s' input (out ++ ["Key not found" +:+ nl])
    | Fault f => Panic f out
    end
  else Again s input (out ++ ["Unknown command" +:+ nl]).

(** How [runInteractiveMode] ends, when it does: with the cache, the input
    left and everything printed. *)
Inductive outcome :=
| Exited (s : State) (input out : list string)
| Panicked (f : fault) (out : list string).

Fixpoint commandLoop (rounds : nat) (s : State) (input out : list string)
  : option outcome :=
  match rounds with
  | O => None
  | S rounds' =>
      match commandRound s input out with
      | Again s input out => commandLoop rounds' s input out
      | Quit s input out => Some (Exited s input out)
      | Panic f out => Some (Panicked f out)
      end
  end.

(** [runInteractiveMode], each of its two loops run for at most [rounds]
    rounds. *)
Definition runInteractiveMode (atoi : string → option Z) (rounds : nat)
    (input : list string) : option outcome :=
  let out := ["Welcome to the interactive demo of go-cache" +:+ nl] in
  match sizeLoop atoi rounds input out with
  | None => None
  | Some (s, input, out) => commandLoop rounds s input out
  end.

(** An [atoi] for the examples: the numerals of one decimal digit. *)
Definition atoiDigit (s : string) : option Z :=
  match s with
  | String c EmptyString =>
      let n := Z.of_nat (Ascii.nat_of_ascii c) in
      if decide (48 ≤ n ≤ 57)%Z then Some (n - 48)%Z else None
  | _ => None
  end.

(** ** Sequences of calls *)
(** A call of one of the three public functions, and what it returned. *)
Inductive call :=
| CallGet (k : string)
| CallSet (k v : string)
| CallDelete (k : string).

Inductive answer :=
| GetReturned (v : string) (ok : bool)
| SetReturned (updated : bool)
| DeleteReturned (ok : bool).

Definition perform (c : call) : M answer :=
  match c with
  | CallGet k => do r <- Get k; ret (GetReturned r.1 r.2)
  | CallSet k v => do r <- Set_ k v; ret (SetReturned r)
  | CallDelete k => do r <- Delete k; ret (DeleteReturned r)
  end.

(** The calls one after the other, collecting what they return. *)
Fixpoint performAll (cs : list call) : M (list answer) :=
  match cs with
  | [] => ret []
  | c :: cs => do a <- perform c; do r <- performAll cs; ret (a :: r)
  end.

(** The same calls in the list model. *)
Definition aPerform (cap : Z) (c : call) (es : list (string * string))
  : answer * list (string * string) :=
  match c with
  | CallGet k => (GetReturned (aGet k es).1.1 (aGet k es).1.2, (aGet k es).2)
  | CallSet k v => (SetReturned (aSet cap k v es).1, (aSet cap k v es).2)
  | CallDelete k => (DeleteReturned (aDelete k es).1, (aDelete k es).2)
  end.

Fixpoint aPerformAll (cap : Z) (cs : list call) (es : list (string * string))
  : list answer * list (string * string) :=
  match cs with
  | [] => ([], es)
  | c :: cs =>
      ((aPerform cap c es).1 :: (aPerformAll cap cs (aPerform cap c es).2).1,
       (aPerformAll cap cs (aPerform cap c es).2).2)
  end.

(** * Proofs *)

Lemma bind_ok {A B} (m : M A) (k : A -> M B) s a s' :
  m s = Ok a s' -> bind m k s = k a s'.
Proof. unfold bind. intros ->. reflexivity. Qed.

Ltac run_prims :=
  unfold getNext, getPrev, getKey, getValue, setNext, setPrev, setValue, setKey,
         update, load, getHead, setHead, alloc, bind, ret, withHeap, withCache; simpl.

Ltac field_eq :=
  let x := fresh "x" in
  intros x; unfold nextOf, prevOf, keyOf, valueOf;
  rewrite ?lookup_insert; repeat case_decide; simplify_map_eq; try done.

Lemma removeFromList_single s a :
  nextOf (heap s) a = Some a ->
  ∃ s', removeFromList (Some a) s = Ok tt s'
     ∧ head (cache s') = None ∧ sameFields (cache s) (cache s') ∧ heap s' = heap s.
Proof.
  unfold nextOf. intros Hn.
  destruct (heap s !! a) as [na|] eqn:Ha; [simpl in Hn|done].
  unfold removeFromList. run_prims. rewrite Ha, Hn.
  rewrite decide_True by done. eexists. split; [reflexivity|]. done.
Qed.

Lemma removeFromList_multi s a b c :
  nextOf (heap s) a = Some b -> prevOf (heap s) a = Some c ->
  b ≠ a -> c ≠ a -> is_Some (heap s !! b) -> is_Some (heap s !! c) ->
  ∃ s', removeFromList (Some a) s = Ok tt s'
     ∧ head (cache s') = (if decide (Some a = head (cache s)) then Some b else head (cache s))
     ∧ sameFields (cache s) (cache s')
     ∧ (∀ x, nextOf (heap s') x = if decide (x = c) then Some b else nextOf (heap s) x)
     ∧ (∀ x, prevOf (heap s') x = if decide (x = b) then Some c else prevOf (heap s) x)
     ∧ (∀ x, keyOf (heap s') x = keyOf (heap s) x)
     ∧ (∀ x, valueOf (heap s') x = valueOf (heap s) x).
Proof.
  unfold nextOf, prevOf. intros Hn Hp Hb Hc [nb Hnb] [nc Hnc].
  destruct (heap s !! a) as [na|] eqn:Ha; [simpl in Hn, Hp|done].
  unfold removeFromList. run_prims. rewrite Ha, Hn.
  rewrite decide_False by congruence.
  destruct (decide (Some a = head (cache s))) as [Hh|Hh];
  destruct (decide (b = c)) as [Hbc|Hbc];
    repeat (progress (simpl; simplify_map_eq));
    (eexists; split; [reflexivity|]; simpl;
     repeat split; try done; field_eq).

Qed.

Lemma addToHead_empty s k v :
  head (cache s) = None ->
  ∃ a s', addToHead k v s = Ok a s'
     ∧ heap s !! a = None
     ∧ head (cache s') = Some a ∧ sameFields (cache s) (cache s')
     ∧ (∀ x, nextOf (heap s') x = if decide (x = a) then Some a else nextOf (heap s) x)
     ∧ (∀ x, prevOf (heap s') x = if decide (x = a) then Some a else prevOf (heap s) x)
     ∧ (∀ x, keyOf (heap s') x = if decide (x = a) then Some k else keyOf (heap s) x)
     ∧ (∀ x, valueOf (heap s') x = if decide (x = a) then Some v else valueOf (heap s) x).
Proof.
  intros Hh.
  assert (Hf : heap s !! fresh (dom (heap s)) = None)
    by (apply not_elem_of_dom, is_fresh).
  unfold addToHead. run_prims.
  repeat (progress (simpl; simplify_map_eq; rewrite ?Hh)).
  eexists _, _. split; [reflexivity|]. simpl.
  repeat split; try done; field_eq.
Qed.

Lemma addToHead_nonempty s k v hd t :
  head (cache s) = Some hd -> prevOf (heap s) hd = Some t -> is_Some (heap s !! t) ->
  ∃ a s', addToHead k v s = Ok a s'
     ∧ heap s !! a = None
     ∧ head (cache s') = Some a ∧ sameFields (cache s) (cache s')
     ∧ (∀ x, nextOf (heap s') x =
             if decide (x = a) then Some hd
             else if decide (x = t) then Some a else nextOf (heap s) x)
     ∧ (∀ x, prevOf (heap s') x =
             if decide (x = a) then Some t
             else if decide (x = hd) then Some a else prevOf (heap s) x)
     ∧ (∀ x, keyOf (heap s') x = if decide (x = a) then Some k else keyOf (heap s) x)
     ∧ (∀ x, valueOf (heap s') x = if decide (x = a) then Some v else valueOf (heap s) x).
Proof.
  unfold prevOf. intros Hh Hp [nt Hnt].
  destruct (heap s !! hd) as [nh|] eqn:Hnh; [simpl in Hp|done].
  assert (Hf : heap s !! fresh (dom (heap s)) = None)
    by (apply not_elem_of_dom, is_fresh).
  assert (fresh (dom (heap s)) ≠ hd) by congruence.
  assert (fresh (dom (heap s)) ≠ t) by congruence.
  unfold addToHead. run_prims.
  destruct (decide (hd = t)) as [Hht|Hht];
  repeat (progress (simpl; simplify_map_eq; rewrite ?Hh));
  (eexists _, _; split; [reflexivity|]; simpl;
  repeat split; try done; field_eq).
Qed.

Lemma path_app l1 x l2 : path (l1 ++ x :: l2) = path (l1 ++ [x]) ++ path (x :: l2).
Proof.
  induction l1 as [|a [|b l1] IH]; simpl in *; [done..|].
  by rewrite IH.
Qed.

Lemma path_snoc l x y : path (l ++ [x; y]) = path (l ++ [x]) ++ [(x, y)].
Proof. by rewrite path_app. Qed.

Lemma path_cons x y l : path (x :: y :: l) = (x, y) :: path (y :: l).
Proof. done. Qed.

Lemma elem_of_path_fst l c e : e ∈ path (l ++ [c]) → e.1 ∈ l.
Proof.
  induction l as [|a [|b l] IH]; simpl.
  - by intros ?%elem_of_nil.
  - intros ->%list_elem_of_singleton. simpl. left.
  - intros [->|He]%elem_of_cons; [left|right; by apply IH].
Qed.

Lemma elem_of_path_snd b l e : e ∈ path (b :: l) → e.2 ∈ l.
Proof.
  revert b. induction l as [|a l IH]; intros b; simpl.
  - by intros ?%elem_of_nil.
  - intros [->|He]%elem_of_cons; [left|right; by eapply IH].
Qed.

Lemma cyc_cons x l : cyc (x :: l) = path (x :: l ++ [x]).
Proof. done. Qed.

Lemma cyc_rotate l1 l2 : cyc (l1 ++ l2) ≡ₚ cyc (l2 ++ l1).
Proof.
  destruct l1 as [|x l1]; [by rewrite app_nil_r|].
  destruct l2 as [|y l2]; [by rewrite app_nil_r|].
  assert (E : ∀ a k b m, cyc ((a :: k) ++ b :: m)
                = path ((a :: k) ++ [b]) ++ path ((b :: m) ++ [a])).
  { intros a k b m.
    change (cyc ((a :: k) ++ b :: m)) with (path (((a :: k) ++ b :: m) ++ [a])).
    rewrite <-app_assoc. exact (path_app (a :: k) b (m ++ [a])). }
  rewrite !E. apply Permutation_app_comm.
Qed.

Lemma links_rotate h l1 l2 :
  Forall (linked h) (cyc (l1 ++ l2)) → Forall (linked h) (cyc (l2 ++ l1)).
Proof. by rewrite cyc_rotate. Qed.

Lemma cyc_ends l b c :
  l !! 0%nat = Some b → last l = Some c → cyc l = path l ++ [(c, b)].
Proof.
  intros Hb [l' ->]%last_Some.
  assert (cyc (l' ++ [c]) = path ((l' ++ [c]) ++ [b])) as ->.
  { destruct l'; by simplify_eq/=. }
  rewrite <-app_assoc. apply path_snoc.
Qed.

Lemma path_first_ne l c e : NoDup l → last l = Some c → e ∈ path l → e.1 ≠ c.
Proof.
  intros Hnd [l' ->]%last_Some He%elem_of_path_fst Heq. rewrite Heq in He.
  apply NoDup_app in Hnd as (_ & Hd & _). apply (Hd _ He). left.
Qed.

Lemma path_second_ne l b e : NoDup l → l !! 0%nat = Some b → e ∈ path l → e.2 ≠ b.
Proof.
  destruct l as [|b' l]; intros Hnd Hb He; simplify_eq/=.
  apply elem_of_path_snd in He. apply NoDup_cons in Hnd as [Hn _].
  intros Heq. by rewrite Heq in He.
Qed.

(** The links of a ring [a :: r] with [r] not empty, first node of [r] being
    [b] and last [c]. *)
Lemma cyc_cons_ends a r b c :
  r !! 0%nat = Some b → last r = Some c →
  cyc (a :: r) = (a, b) :: path r ++ [(c, a)].
Proof.
  intros Hb Hc. rewrite (cyc_ends (a :: r) a c); [|done|].
  - destruct r; by simplify_eq/=.
  - destruct r; [done|]. by rewrite last_cons, Hc.
Qed.

Lemma links_single h a :
  Forall (linked h) (cyc [a]) → nextOf h a = Some a ∧ prevOf h a = Some a.
Proof. intros Hl. inversion Hl as [|?? [??]]; done. Qed.

Lemma links_defined h l a : Forall (linked h) (cyc l) → a ∈ l → is_Some (h !! a).
Proof.
  intros Hl [l1 [l2 ->]]%list_elem_of_split.
  apply links_rotate in Hl. simpl in Hl.
  assert (is_Some (nextOf h a)) as [b Hb].
  { destruct (l2 ++ l1) as [|b r] eqn:E.
    - apply links_single in Hl as [-> _]. eauto.
    - rewrite Forall_forall in Hl. destruct (Hl (a, b)) as [H1 _]; [left|].
      simpl in H1. eauto. }
  unfold nextOf in Hb. destruct (h !! a); eauto. done.
Qed.

(** Unlinking the first node of a ring with at least two nodes. *)
Lemma links_remove h h' a r b c :
  NoDup (a :: r) → Forall (linked h) (cyc (a :: r)) →
  r !! 0%nat = Some b → last r = Some c →
  (∀ x, nextOf h' x = if decide (x = c) then Some b else nextOf h x) →
  (∀ x, prevOf h' x = if decide (x = b) then Some c else prevOf h x) →
  Forall (linked h') (cyc r).
Proof.
  intros [Ha Hnd]%NoDup_cons Hl Hb Hc Hn Hp.
  rewrite (cyc_cons_ends a r b c) in Hl by done.
  rewrite (cyc_ends r b c) by done.
  apply Forall_cons in Hl as [_ [Hl _]%Forall_app].
  apply Forall_app. split.
  - rewrite Forall_forall in Hl |- *. intros e He.
    destruct (Hl e He) as [H1 H2]. split.
    + rewrite Hn, decide_False; [done|]. by eapply path_first_ne.
    + rewrite Hp, decide_False; [done|]. by eapply path_second_ne.
  - apply Forall_singleton. split; simpl; [rewrite Hn|rewrite Hp]; by rewrite decide_True.
Qed.

(** What the links of a ring of two or more nodes say about its first node. *)
Lemma links_ends h a r b c :
  Forall (linked h) (cyc (a :: r)) → r !! 0%nat = Some b → last r = Some c →
  nextOf h a = Some b ∧ prevOf h a = Some c.
Proof.
  intros Hl Hb Hc. rewrite (cyc_cons_ends a r b c) in Hl by done.
  apply Forall_cons in Hl as [[H1 _] [_ [[_ H2] _]%Forall_cons]%Forall_app]. done.
Qed.

(** Linking a fresh node in front of the first node of a ring. *)
Lemma links_add h h' a l hd t :
  NoDup (a :: l) → Forall (linked h) (cyc l) →
  l !! 0%nat = Some hd → last l = Some t →
  (∀ x, nextOf h' x = if decide (x = a) then Some hd
                      else if decide (x = t) then Some a else nextOf h x) →
  (∀ x, prevOf h' x = if decide (x = a) then Some t
                      else if decide (x = hd) then Some a else prevOf h x) →
  Forall (linked h') (cyc (a :: l)).
Proof.
  intros [Ha Hnd]%NoDup_cons Hl Hb Hc Hn Hp.
  rewrite (cyc_cons_ends a l hd t) by done.
  rewrite (cyc_ends l hd t) in Hl by done.
  apply Forall_app in Hl as [Hl _].
  assert (hd ∈ l) by (by eapply list_elem_of_lookup_2).
  assert (t ∈ l) by (by apply last_Some_elem_of).
  assert (hd ≠ a) by (by intros ->).
  assert (t ≠ a) by (by intros ->).
  apply Forall_cons. split; [|apply Forall_app; split].
  - split; simpl; [rewrite Hn|rewrite Hp]; by repeat case_decide.
  - rewrite Forall_forall in Hl |- *. intros e He.
    destruct (Hl e He) as [Hl1 Hl2].
    assert (e.1 ∈ l ∧ e.2 ∈ l) as [??].
    { clear -He. induction l as [|u [|w l] IH]; simpl in *;
        [by apply elem_of_nil in He..|].
      apply elem_of_cons in He as [->|He]; simpl.
      - split; [left|right; left].
      - destruct (IH He). split; by right. }
    split.
    + rewrite Hn. rewrite decide_False by (intros Heq; by rewrite Heq in *).
      rewrite decide_False; [done|]. by eapply path_first_ne.
    + rewrite Hp. rewrite decide_False by (intros Heq; by rewrite Heq in *).
      rewrite decide_False; [done|]. by eapply path_second_ne.
  - apply Forall_singleton.
    split; simpl; [rewrite Hn|rewrite Hp]; by repeat case_decide.
Qed.

Lemma links_add_empty h' a :
  nextOf h' a = Some a → prevOf h' a = Some a → Forall (linked h') (cyc [a]).
Proof. intros. by apply Forall_singleton. Qed.

Lemma links_next_first h a l x :
  Forall (linked h) (cyc (a :: l)) → (l ++ [a]) !! 0%nat = Some x → nextOf h a = Some x.
Proof.
  intros Hl Hx. rewrite cyc_cons in Hl.
  destruct l as [|y l]; simplify_eq/=; by apply Forall_cons in Hl as [[? _] _].
Qed.

Lemma links_prev_first h l hd t :
  Forall (linked h) (cyc l) → l !! 0%nat = Some hd → last l = Some t →
  prevOf h hd = Some t.
Proof.
  intros Hl Hb Hc. rewrite (cyc_ends l hd t) in Hl by done.
  by apply Forall_app in Hl as [_ [[_ ?] _]%Forall_cons].
Qed.

#[global] Arguments cyc : simpl never.

Lemma NoDup_perm {A} (l k : list A) : l ≡ₚ k → NoDup l → NoDup k.
Proof. by intros ->. Qed.

Lemma getNext_ok s a x : nextOf (heap s) a = Some x → getNext (Some a) s = Ok (Some x) s.
Proof.
  unfold nextOf, getNext, load, bind, ret. destruct (heap s !! a); simpl; [|done].
  by intros ->.
Qed.

Lemma getPrev_ok s a x : prevOf (heap s) a = Some x → getPrev (Some a) s = Ok (Some x) s.
Proof.
  unfold prevOf, getPrev, load, bind, ret. destruct (heap s !! a); simpl; [|done].
  by intros ->.
Qed.

Lemma getKey_ok s a k : keyOf (heap s) a = Some k → getKey (Some a) s = Ok k s.
Proof.
  unfold keyOf, getKey, load, bind, ret. destruct (heap s !! a); simpl; [|done].
  by intros [= ->].
Qed.

Lemma getValue_ok s a v : valueOf (heap s) a = Some v → getValue (Some a) s = Ok v s.
Proof.
  unfold valueOf, getValue, load, bind, ret. destruct (heap s !! a); simpl; [|done].
  by intros [= ->].
Qed.

Lemma setValue_ok s a v :
  is_Some (heap s !! a) →
  ∃ s', setValue (Some a) v s = Ok tt s'
     ∧ cache s' = cache s
     ∧ (∀ x, nextOf (heap s') x = nextOf (heap s) x)
     ∧ (∀ x, prevOf (heap s') x = prevOf (heap s) x)
     ∧ (∀ x, keyOf (heap s') x = keyOf (heap s) x)
     ∧ (∀ x, valueOf (heap s') x = if decide (x = a) then Some v else valueOf (heap s) x).
Proof.
  intros [n Hn]. unfold setValue. run_prims. rewrite Hn.
  eexists. split; [reflexivity|]. simpl. repeat split; field_eq.
Qed.

Lemma holds_defined h e : holds h e → is_Some (h !! e.1).
Proof. unfold holds, keyOf. intros [Hk _]. destruct (h !! e.1); eauto. done. Qed.

Lemma Forall_holds_frame h h' (ns : list entry) :
  (∀ x, x ∈ ns.*1 → keyOf h' x = keyOf h x) →
  (∀ x, x ∈ ns.*1 → valueOf h' x = valueOf h x) →
  Forall (holds h) ns → Forall (holds h') ns.
Proof.
  intros Hk Hv. rewrite !Forall_forall. intros H e He.
  assert (e.1 ∈ ns.*1) by (by apply list_elem_of_fmap_2).
  destruct (H e He). split; [rewrite Hk|rewrite Hv]; done.
Qed.

Lemma Ring_nil h : Ring h None [].
Proof. split; simpl; try done; constructor. Qed.

Lemma Ring_defined h hd ns a : Ring h hd ns → a ∈ ns.*1 → is_Some (h !! a).
Proof.
  intros [_ _ Hd _] (e & -> & He)%list_elem_of_fmap.
  rewrite Forall_forall in Hd. by apply holds_defined, Hd.
Qed.

(** [removeFromList] on a node of the ring. *)
Lemma removeFromList_ring s ns1 a kv ns2 :
  Ring (heap s) (head (cache s)) (ns1 ++ (a, kv) :: ns2) →
  ∃ s', removeFromList (Some a) s = Ok tt s'
     ∧ Ring (heap s') (head (cache s')) (ns1 ++ ns2)
     ∧ sameFields (cache s) (cache s')
     ∧ (∀ x, keyOf (heap s') x = keyOf (heap s) x)
     ∧ (∀ x, valueOf (heap s') x = valueOf (heap s) x).
Proof.
  intros [Hnd Hl Hd Hh].
  rewrite fmap_app, fmap_cons in Hnd, Hl, Hh. simpl in *.
  set (l1 := ns1.*1) in *. set (l2 := ns2.*1) in *.
  assert (Hnd' : NoDup (a :: l2 ++ l1)).
  { eapply NoDup_perm; [|exact Hnd].
    rewrite (Permutation_app_comm l2 l1). symmetry. apply Permutation_middle. }
  assert (Hl' : Forall (linked (heap s)) (cyc (a :: l2 ++ l1))).
  { apply (links_rotate _ l1 (a :: l2)) in Hl. done. }
  assert (Hd' : Forall (holds (heap s)) (ns1 ++ ns2)).
  { apply Forall_app in Hd as [? [_ ?]%Forall_cons]. by apply Forall_app. }
  destruct (l2 ++ l1) as [|b r] eqn:Hr.
  - (* the only node *)
    apply app_eq_nil in Hr as [Hl2 Hl1].
    apply links_single in Hl' as [Hn _].
    destruct (removeFromList_single s a Hn) as (s' & Hrun & Hh' & Hsame & Hheap).
    exists s'. rewrite Hheap. repeat split; try done; try apply Hsame.
    + rewrite fmap_app. fold l1 l2. rewrite Hl1, Hl2. constructor.
    + rewrite fmap_app. fold l1 l2. rewrite Hl1, Hl2. constructor.
    + rewrite Hh', fmap_app. fold l1 l2. by rewrite Hl1, Hl2.
  - (* two nodes or more *)
    assert (is_Some (last (b :: r))) as [c Hc] by (by apply last_is_Some).
    assert (Hb : (b :: r) !! 0%nat = Some b) by done.
    destruct (links_ends _ _ _ _ _ Hl' Hb Hc) as [Hn Hp].
    apply NoDup_cons in Hnd' as Hnd''. destruct Hnd'' as [Ha Hndr].
    assert (b ≠ a) by (intros ->; apply Ha; left).
    assert (c ∈ b :: r) by (by apply last_Some_elem_of).
    assert (c ≠ a) by (by intros ->).
    assert (Hin : ∀ x, x ∈ b :: r → is_Some (heap s !! x)).
    { intros x Hx. apply (links_defined _ _ _ Hl'). by right. }
    destruct (removeFromList_multi s a b c Hn Hp) as
      (s' & Hrun & Hh' & Hsame & Hn' & Hp' & Hk' & Hv'); try done.
    { apply Hin. left. } { by apply Hin. }
    exists s'. repeat split; try done; try apply Hsame.
    + rewrite fmap_app. fold l1 l2. rewrite <-Hr in Hndr.
      eapply NoDup_perm; [|exact Hndr]. apply Permutation_app_comm.
    + rewrite fmap_app. fold l1 l2. apply links_rotate. rewrite Hr.
      by eapply links_remove.
    + eapply Forall_holds_frame; [| |exact Hd']; done.
    + rewrite Hh', Hh, fmap_app. fold l1 l2.
      destruct l1 as [|x l1'] eqn:El1; simpl.
      * rewrite decide_True by done. rewrite app_nil_r in Hr. by rewrite Hr.
      * rewrite decide_False; [done|]. intros [= ->].
        apply Ha. rewrite <-Hr. apply elem_of_app. right. left.
Qed.

(** [addToHead] on a ring. *)
Lemma addToHead_ring s ns k v :
  Ring (heap s) (head (cache s)) ns →
  ∃ a s', addToHead k v s = Ok a s'
     ∧ Ring (heap s') (head (cache s')) ((a, (k, v)) :: ns)
     ∧ heap s !! a = None
     ∧ sameFields (cache s) (cache s')
     ∧ (∀ x, keyOf (heap s') x = if decide (x = a) then Some k else keyOf (heap s) x)
     ∧ (∀ x, valueOf (heap s') x = if decide (x = a) then Some v else valueOf (heap s) x).
Proof.
  intros HR. pose proof HR as [Hnd Hl Hd Hh].
  assert (Hfresh : ∀ a, heap s !! a = None → a ∉ ns.*1).
  { intros a Ha Hin. destruct (Ring_defined _ _ _ _ HR Hin) as [? ?]. congruence. }
  assert (Hframe : ∀ a h', heap s !! a = None →
     (∀ x, keyOf h' x = if decide (x = a) then Some k else keyOf (heap s) x) →
     (∀ x, valueOf h' x = if decide (x = a) then Some v else valueOf (heap s) x) →
     Forall (holds h') ((a, (k, v)) :: ns)).
  { intros a h' Ha Hk Hv. apply Forall_cons. split.
    - split; simpl; [rewrite Hk|rewrite Hv]; by rewrite decide_True.
    - eapply Forall_holds_frame; [| |exact Hd]; intros x Hx;
        [rewrite Hk|rewrite Hv]; rewrite decide_False; try done;
        intros ->; by apply (Hfresh a). }
  destruct (ns.*1) as [|hd l] eqn:El.
  - destruct (addToHead_empty s k v Hh) as
      (a & s' & Hrun & Ha & Hh' & Hsame & Hn' & Hp' & Hk' & Hv').
    exists a, s'. repeat split; try done; try apply Hsame.
    + rewrite fmap_cons, El. simpl. apply NoDup_singleton.
    + rewrite fmap_cons, El. simpl. apply links_add_empty.
      * rewrite Hn'. by rewrite decide_True.
      * rewrite Hp'. by rewrite decide_True.
    + by apply Hframe.
  - assert (is_Some (last (hd :: l))) as [t Ht] by (by apply last_is_Some).
    assert (Hb : (hd :: l) !! 0%nat = Some hd) by done.
    pose proof (links_prev_first _ _ _ _ Hl Hb Ht) as Hp.
    assert (Hin : t ∈ hd :: l) by (by apply last_Some_elem_of).
    destruct (addToHead_nonempty s k v hd t Hh Hp) as
      (a & s' & Hrun & Ha & Hh' & Hsame & Hn' & Hp' & Hk' & Hv').
    { apply (links_defined _ _ _ Hl Hin). }
    exists a, s'. repeat split; try done; try apply Hsame.
    + rewrite fmap_cons, El. simpl. apply NoDup_cons. split; [|done].
      by apply Hfresh.
    + rewrite fmap_cons, El. simpl. eapply links_add; try done.
      apply NoDup_cons. split; [|done]. by apply Hfresh.
    + by apply Hframe.
Qed.

(** [addToTail] on a ring. *)
Lemma addToTail_ring s ns k v :
  Ring (heap s) (head (cache s)) ns →
  ∃ a s', addToTail k v s = Ok a s'
     ∧ Ring (heap s') (head (cache s')) (ns ++ [(a, (k, v))])
     ∧ heap s !! a = None
     ∧ sameFields (cache s) (cache s')
     ∧ (∀ x, keyOf (heap s') x = if decide (x = a) then Some k else keyOf (heap s) x)
     ∧ (∀ x, valueOf (heap s') x = if decide (x = a) then Some v else valueOf (heap s) x).
Proof.
  intros HR.
  destruct (addToHead_ring s ns k v HR) as
    (a & s1 & Hrun & [Hnd Hl Hd Hh] & Ha & Hsame & Hk & Hv).
  rewrite fmap_cons in Hnd, Hl, Hh. simpl in *.
  assert (is_Some ((ns.*1 ++ [a]) !! 0%nat)) as [x Hx].
  { apply lookup_lt_is_Some. rewrite length_app. simpl. lia. }
  pose proof (links_next_first _ _ _ _ Hl Hx) as Hn.
  unfold addToTail. rewrite (bind_ok _ _ _ _ _ Hrun).
  unfold bind at 1. unfold bind at 1. unfold getHead at 1. rewrite Hh.
  rewrite (bind_ok _ _ _ _ _ (getNext_ok _ _ _ Hn)).
  unfold setHead, ret, withCache. simpl.
  eexists _, _. split; [reflexivity|]. simpl.
  repeat split; try done; try apply Hsame.
  - rewrite fmap_app. simpl. eapply NoDup_perm; [|exact Hnd].
    apply Permutation_cons_append.
  - rewrite fmap_app. simpl. by apply (links_rotate _ [a] (ns.*1)).
  - apply Forall_cons in Hd as [??]. apply Forall_app. split; [done|].
    by apply Forall_singleton.
  - rewrite fmap_app. simpl. done.
Qed.

Lemma alookup_None k es : k ∉ es.*1 → alookup k es = None.
Proof.
  induction es as [|[k' v] es IH]; simpl; [done|].
  intros Hk. apply not_elem_of_cons in Hk as [??].
  rewrite decide_False by done. by apply IH.
Qed.

Lemma alookup_middle k v es1 es2 :
  k ∉ es1.*1 → alookup k (es1 ++ (k, v) :: es2) = Some v.
Proof.
  induction es1 as [|[k' v'] es1 IH]; simpl.
  - intros _. by rewrite decide_True.
  - intros Hk. apply not_elem_of_cons in Hk as [??].
    rewrite decide_False by done. by apply IH.
Qed.

Lemma aremove_middle k v es1 es2 :
  k ∉ es1.*1 → aremove k (es1 ++ (k, v) :: es2) = es1 ++ es2.
Proof.
  induction es1 as [|[k' v'] es1 IH]; simpl.
  - intros _. by rewrite decide_True.
  - intros Hk. apply not_elem_of_cons in Hk as [??].
    rewrite decide_False by done. by rewrite IH.
Qed.

Lemma aupdate_middle k v w es1 es2 :
  k ∉ es1.*1 → aupdate k w (es1 ++ (k, v) :: es2) = es1 ++ (k, w) :: es2.
Proof.
  induction es1 as [|[k' v'] es1 IH]; simpl.
  - intros _. by rewrite decide_True.
  - intros Hk. apply not_elem_of_cons in Hk as [??].
    rewrite decide_False by done. by rewrite IH.
Qed.

(** ** Consequences of coherence *)

Lemma entry_unique (ns : list entry) a kv kv' :
  NoDup ns.*1 → (a, kv) ∈ ns → (a, kv') ∈ ns → kv = kv'.
Proof.
  intros Hnd [i Hi]%list_elem_of_lookup [j Hj]%list_elem_of_lookup.
  assert (i = j).
  { eapply NoDup_lookup; [exact Hnd| |]; rewrite list_lookup_fmap.
    - by rewrite Hi. - by rewrite Hj. }
  by simplify_eq.
Qed.

Lemma split_not_in (ns1 ns2 : list entry) a kv kv' :
  NoDup (ns1 ++ (a, kv) :: ns2).*1 → (a, kv') ∉ ns1 ++ ns2.
Proof.
  rewrite fmap_app, fmap_cons. simpl. intros Hnd Hin.
  assert (NoDup (a :: ns1.*1 ++ ns2.*1)) as [Ha _]%NoDup_cons.
  { eapply NoDup_perm; [|exact Hnd]. symmetry. apply Permutation_middle. }
  apply Ha. rewrite <-fmap_app. by apply (list_elem_of_fmap_2 fst _ (a, kv')).
Qed.

Lemma Coh_key_not_before s ns1 a k v ns2 :
  Coh s (ns1 ++ (a, (k, v)) :: ns2) → k ∉ ns1.*2.*1.
Proof.
  intros [[Hnd _ _ _] Hst _ _ _] Hin.
  apply list_elem_of_fmap in Hin as ([k' v'] & -> & Hin).
  apply list_elem_of_fmap in Hin as ([b kv] & Heq & Hin). simpl in *. subst kv.
  assert (store (cache s) !! k' = Some b) as Hb.
  { apply Hst. exists v'. apply elem_of_app. by left. }
  assert (store (cache s) !! k' = Some a) as Ha.
  { apply Hst. exists v. apply elem_of_app. right. left. }
  assert (b = a) by congruence. subst b.
  apply (split_not_in _ _ _ _ (k', v') Hnd). apply elem_of_app. by left.
Qed.

Lemma Coh_key_absent s ns k :
  Coh s ns → store (cache s) !! k = None → k ∉ ns.*2.*1.
Proof.
  intros [_ Hst _ _ _] Hk Hin.
  apply list_elem_of_fmap in Hin as ([k' v'] & -> & Hin).
  apply list_elem_of_fmap in Hin as ([b kv] & Heq & Hin). simpl in *. subst kv.
  assert (store (cache s) !! k' = Some b) by (apply Hst; eauto). congruence.
Qed.

Lemma Coh_store_split s ns k a :
  Coh s ns → store (cache s) !! k = Some a →
  ∃ ns1 v ns2, ns = ns1 ++ (a, (k, v)) :: ns2.
Proof.
  intros [_ Hst _ _ _] Hk. apply Hst in Hk as [v Hin].
  apply list_elem_of_split in Hin as (ns1 & ns2 & ->). eauto.
Qed.

Lemma Coh_mutex s ns f : Coh s ns → Coh (withMutex f s) ns.
Proof. intros [? ? ? ? ?]. by split. Qed.

Lemma locking_run {A} (body : M A) s r s1 :
  locked (mutex (cache s)) = false →
  body (lockSt s) = Ok r s1 →
  mutex (cache s1) = mutex (cache (lockSt s)) →
  locking body s = Ok r (unlockSt s1).
Proof.
  intros Hu Hb Hm. unfold locking, bind, Lock, Unlock, ret. rewrite Hu.
  fold (lockSt s). rewrite Hb, Hm. reflexivity.
Qed.

Lemma Get_eq k : Get k = locking (Get_locked k).
Proof. reflexivity. Qed.

Ltac step H := rewrite (bind_ok _ _ _ _ _ H); cbv beta iota.

Lemma keyOf_defined h a k : keyOf h a = Some k → is_Some (h !! a).
Proof. unfold keyOf. destruct (h !! a); eauto. done. Qed.

Lemma Get_locked_sim s ns k :
  Coh s ns →
  ∃ s' ns', Get_locked k s = Ok (aGet k ns.*2).1 s'
     ∧ Coh s' ns' ∧ ns'.*2 = (aGet k ns.*2).2
     ∧ mutex (cache s') = mutex (cache s)
     ∧ capacity (cache s') = capacity (cache s).
Proof.
  intros HC. unfold Get_locked.
  assert (Hlk : storeLookup k s = Ok (store (cache s) !! k) s) by done.
  step Hlk.
  destruct (store (cache s) !! k) as [a|] eqn:Hk.
  - destruct (Coh_store_split _ _ _ _ HC Hk) as (ns1 & v & ns2 & ->).
    pose proof (Coh_key_not_before _ _ _ _ _ _ HC) as Hnb.
    destruct HC as [HR Hst Hsz Hcap Hpos].
    pose proof HR as [Hnd _ Hd _].
    assert (Ha : holds (heap s) (a, (k, v))).
    { rewrite Forall_forall in Hd. apply Hd. apply elem_of_app. right. left. }
    destruct Ha as [Hak Hav]. simpl in Hak, Hav.
    destruct (removeFromList_ring _ _ _ _ _ HR) as (s1 & Hrm & HR1 & Hsame1 & Hk1 & Hv1).
    step Hrm.
    assert (Hgv : getValue (Some a) s1 = Ok v s1).
    { apply getValue_ok. by rewrite Hv1. }
    step Hgv.
    destruct (addToHead_ring s1 _ k v HR1) as
      (a' & s2 & Hadd & HR2 & Hfresh & Hsame2 & Hk2 & Hv2).
    step Hadd.
    assert (a ≠ a').
    { intros ->. destruct (keyOf_defined (heap s1) a' k) as [? ?]; [|congruence].
      by rewrite Hk1. }
    erewrite (bind_ok (storeInsert k a')) by reflexivity. cbv beta.
    erewrite (bind_ok (getValue (Some a)));
      [|apply getValue_ok; simpl; by rewrite Hv2, decide_False, Hv1].
    unfold ret.
    rewrite fmap_app, fmap_cons. unfold aGet. simpl.
    rewrite alookup_middle, aremove_middle by done. simpl.
    eexists _, ((a', (k, v)) :: ns1 ++ ns2). split; [reflexivity|].
    destruct Hsame1 as (Hm1 & Hc1 & Hs1). destruct Hsame2 as (Hm2 & Hc2 & Hs2).
    split; [|repeat split; simpl; try congruence; by rewrite fmap_app].
    split; simpl.
    + done.
    + rewrite Hs2, Hs1. intros k' b. destruct (decide (k' = k)) as [->|Hne].
      * rewrite lookup_insert_eq. split.
        -- intros [= <-]. exists v. left.
        -- intros [v' [Heq|Hin]%elem_of_cons]; [by simplify_eq|]. exfalso.
           assert (store (cache s) !! k = Some b) as Hb.
           { apply Hst. exists v'. set_solver. }
           assert (b = a) by congruence. subst b.
           by apply (split_not_in _ _ _ _ (k, v') Hnd).
      * rewrite lookup_insert_ne by done. rewrite Hst.
        split; intros [v' Hin]; exists v'; set_solver.
    + rewrite Hs2, Hs1. rewrite map_size_insert_Some by eauto.
      rewrite Hsz, !length_app. simpl. lia.
    + rewrite Hc2, Hc1. rewrite !length_app in *. simpl in *. lia.
    + by rewrite Hc2, Hc1.
  - pose proof (Coh_key_absent _ _ _ HC Hk) as Hnk.
    unfold aGet. rewrite (alookup_None _ _ Hnk). simpl.
    exists s, ns. done.
Qed.

Lemma Set_eq k v : Set_ k v = locking (Set_locked k v).
Proof. reflexivity. Qed.
Lemma Delete_eq k : Delete k = locking (Delete_locked k).
Proof. reflexivity. Qed.

Lemma links_frame h h' l :
  (∀ x, nextOf h' x = nextOf h x) → (∀ x, prevOf h' x = prevOf h x) →
  Forall (linked h) l → Forall (linked h') l.
Proof.
  intros Hn Hp Hl. eapply Forall_impl; [exact Hl|].
  intros e [??]. split; by rewrite ?Hn, ?Hp.
Qed.

(** Unlinking a node and forgetting its key, as eviction and [Delete] do. *)
Lemma drop_entry s ns1 a k v ns2 :
  Coh s (ns1 ++ (a, (k, v)) :: ns2) →
  ∃ s1, removeFromList (Some a) s = Ok tt s1
     ∧ getKey (Some a) s1 = Ok k s1
     ∧ Coh (withCache (delStore k) s1) (ns1 ++ ns2)
     ∧ sameFields (cache s) (cache s1).
Proof.
  intros [HR Hst Hsz Hcap Hpos]. pose proof HR as [Hnd _ Hd _].
  assert (Ha : holds (heap s) (a, (k, v))).
  { rewrite Forall_forall in Hd. apply Hd. apply elem_of_app. right. left. }
  destruct Ha as [Hak Hav]. simpl in Hak, Hav.
  destruct (removeFromList_ring _ _ _ _ _ HR) as (s1 & Hrm & HR1 & Hsame1 & Hk1 & Hv1).
  exists s1. split; [done|]. split; [apply getKey_ok; by rewrite Hk1|].
  split; [|done]. destruct Hsame1 as (Hm1 & Hc1 & Hs1).
  assert (Hka : store (cache s) !! k = Some a).
  { apply Hst. exists v. apply elem_of_app. right. left. }
  split; simpl.
  - done.
  - rewrite Hs1. intros k' b. destruct (decide (k' = k)) as [->|Hne].
    + rewrite lookup_delete_eq. split; [done|]. intros [v' Hin]. exfalso.
      assert (store (cache s) !! k = Some b) as Hb.
      { apply Hst. exists v'. set_solver. }
      assert (b = a) by congruence. subst b.
      by apply (split_not_in _ _ _ _ (k, v') Hnd).
    + rewrite lookup_delete_ne by done. rewrite Hst.
      split; intros [v' Hin]; exists v'; set_solver.
  - rewrite Hs1, map_size_delete_Some by eauto.
    rewrite Hsz, !length_app. simpl. lia.
  - rewrite Hc1. rewrite !length_app in *. simpl in *. lia.
  - by rewrite Hc1.
Qed.

(** Appending a new key at the tail, as the second half of [Set] does. *)
Lemma push_entry s ns k v :
  Coh s ns → store (cache s) !! k = None →
  (Z.of_nat (length ns) < capacity (cache s))%Z →
  ∃ a s1, addToTail k v s = Ok a s1
     ∧ Coh (withCache (insStore k a) s1) (ns ++ [(a, (k, v))])
     ∧ sameFields (cache s) (cache s1).
Proof.
  intros [HR Hst Hsz Hcap Hpos] Hk Hlt.
  destruct (addToTail_ring s ns k v HR) as
    (a & s1 & Hrun & HR1 & Hfresh & Hsame & Hk1 & Hv1).
  exists a, s1. split; [done|]. split; [|done].
  destruct Hsame as (Hm1 & Hc1 & Hs1).
  split; simpl.
  - done.
  - rewrite Hs1. intros k' b. destruct (decide (k' = k)) as [->|Hne].
    + rewrite lookup_insert_eq. split.
      * intros [= <-]. exists v. set_solver.
      * intros [v' [Hin|Hin]%elem_of_app].
        -- assert (store (cache s) !! k = Some b) by (apply Hst; eauto). congruence.
        -- apply list_elem_of_singleton in Hin. by simplify_eq.
    + rewrite lookup_insert_ne by done. rewrite Hst.
      split; intros [v' Hin]; exists v'; set_solver.
  - rewrite Hs1, map_size_insert_None by done.
    rewrite Hsz, length_app. simpl. lia.
  - rewrite Hc1, length_app. simpl. lia.
  - by rewrite Hc1.
Qed.

Lemma Delete_locked_sim s ns k :
  Coh s ns →
  ∃ s' ns', Delete_locked k s = Ok (aDelete k ns.*2).1 s'
     ∧ Coh s' ns' ∧ ns'.*2 = (aDelete k ns.*2).2
     ∧ mutex (cache s') = mutex (cache s)
     ∧ capacity (cache s') = capacity (cache s).
Proof.
  intros HC. unfold Delete_locked.
  assert (Hlk : storeLookup k s = Ok (store (cache s) !! k) s) by done.
  step Hlk.
  destruct (store (cache s) !! k) as [a|] eqn:Hk.
  - destruct (Coh_store_split _ _ _ _ HC Hk) as (ns1 & v & ns2 & ->).
    pose proof (Coh_key_not_before _ _ _ _ _ _ HC) as Hnb.
    destruct (drop_entry _ _ _ _ _ _ HC) as (s1 & Hrm & Hgk & HC1 & Hm1 & Hc1 & Hs1).
    step Hrm. step Hgk.
    erewrite (bind_ok (storeDelete k)) by reflexivity. cbv beta. unfold ret.
    rewrite fmap_app, fmap_cons. unfold aDelete. simpl.
    rewrite alookup_middle, aremove_middle by done. simpl.
    eexists _, (ns1 ++ ns2). split; [reflexivity|].
    split; [exact HC1|]. by rewrite fmap_app.
  - pose proof (Coh_key_absent _ _ _ HC Hk) as Hnk.
    unfold aDelete. rewrite (alookup_None _ _ Hnk). simpl.
    exists s, ns. done.
Qed.

Lemma Set_locked_sim s ns k v :
  Coh s ns →
  ∃ s' ns', Set_locked k v s = Ok (aSet (capacity (cache s)) k v ns.*2).1 s'
     ∧ Coh s' ns' ∧ ns'.*2 = (aSet (capacity (cache s)) k v ns.*2).2
     ∧ mutex (cache s') = mutex (cache s)
     ∧ capacity (cache s') = capacity (cache s).
Proof.
  intros HC. unfold Set_locked.
  assert (Hlk : storeLookup k s = Ok (store (cache s) !! k) s) by done.
  step Hlk.
  destruct (store (cache s) !! k) as [a|] eqn:Hk.
  - (* update in place *)
    destruct (Coh_store_split _ _ _ _ HC Hk) as (ns1 & v0 & ns2 & ->).
    pose proof (Coh_key_not_before _ _ _ _ _ _ HC) as Hnb.
    destruct HC as [HR Hst Hsz Hcap Hpos]. pose proof HR as [Hnd Hl Hd Hh].
    destruct (setValue_ok s a v) as (s1 & Hsv & Hc1 & Hn1 & Hp1 & Hk1 & Hv1).
    { apply (Ring_defined _ _ _ _ HR). rewrite fmap_app, fmap_cons. set_solver. }
    step Hsv. unfold ret.
    rewrite fmap_app, fmap_cons. unfold aSet. simpl.
    rewrite alookup_middle, aupdate_middle by done. simpl.
    exists s1, (ns1 ++ (a, (k, v)) :: ns2). split; [reflexivity|].
    split; [|repeat split; rewrite ?Hc1; try done; by rewrite fmap_app, fmap_cons].
    assert (Hfst : (ns1 ++ (a, (k, v)) :: ns2).*1 = (ns1 ++ (a, (k, v0)) :: ns2).*1).
    { by rewrite !fmap_app, !fmap_cons. }
    split; rewrite ?Hc1.
    + split; rewrite ?Hfst; try done.
      * by apply (links_frame (heap s)).
      * apply Forall_app in Hd as [Hd1 [[Hak _] Hd2]%Forall_cons]. simpl in Hak.
        assert (Hother : ∀ ms : list entry, (∀ e, e ∈ ms → e.1 ≠ a) →
                  Forall (holds (heap s)) ms → Forall (holds (heap s1)) ms).
        { intros ms Hne. apply Forall_holds_frame; intros x Hx.
          - apply Hk1.
          - rewrite Hv1, decide_False; [done|].
            apply list_elem_of_fmap in Hx as (e & -> & He). by apply Hne. }
        apply Forall_app. split; [|apply Forall_cons; split].
        -- apply Hother; [|done]. intros [b kv] Hin Hb. simpl in Hb. subst b.
           apply (split_not_in _ _ _ _ kv Hnd). set_solver.
        -- split; simpl; [by rewrite Hk1|]. by rewrite Hv1, decide_True.
        -- apply Hother; [|done]. intros [b kv] Hin Hb. simpl in Hb. subst b.
           apply (split_not_in _ _ _ _ kv Hnd). set_solver.
    + intros k' b. rewrite Hst. split; intros [v' Hin].
      * apply elem_of_app in Hin as [Hin|[Heq|Hin]%elem_of_cons].
        -- exists v'. set_solver.
        -- simplify_eq. exists v. set_solver.
        -- exists v'. set_solver.
      * apply elem_of_app in Hin as [Hin|[Heq|Hin]%elem_of_cons].
        -- exists v'. set_solver.
        -- simplify_eq. exists v0. set_solver.
        -- exists v'. set_solver.
    + rewrite Hsz, !length_app. simpl. lia.
    + rewrite !length_app in *. simpl in *. lia.
    + done.
  - (* a new key *)
    pose proof (Coh_key_absent _ _ _ HC Hk) as Hnk.
    unfold aSet. rewrite (alookup_None _ _ Hnk). simpl.
    rewrite length_fmap.
    assert (Hsz : size (store (cache s)) = length ns) by apply HC.
    (* the eviction step *)
    assert (Hev : ∃ s1 ns1,
      (do n <- storeLen; do c <- getCapacity;
       if decide (n = c) then
         do h <- getHead; do tail <- getPrev h;
         removeFromList tail ;; do tk <- getKey tail; storeDelete tk
       else ret tt) s = Ok tt s1
      ∧ Coh s1 ns1
      ∧ ns1.*2 = (if decide (Z.of_nat (length ns) = capacity (cache s))
                  then removelast ns.*2 else ns.*2)
      ∧ (Z.of_nat (length ns1) < capacity (cache s1))%Z
      ∧ store (cache s1) !! k = None
      ∧ mutex (cache s1) = mutex (cache s)
      ∧ capacity (cache s1) = capacity (cache s)).
    { unfold storeLen at 1, getCapacity at 1. unfold bind at 1. unfold bind at 1.
      rewrite Hsz.
      destruct (decide (Z.of_nat (length ns) = capacity (cache s))) as [Hfull|Hroom].
      - assert (is_Some (last ns)) as [[t [tk tv]] Ht].
        { apply last_is_Some. intros ->. destruct HC. simpl in *. lia. }
        apply last_Some in Ht as [ns' ->].
        pose proof HC as [HR _ _ _ _]. pose proof HR as [_ Hl _ Hh].
        rewrite fmap_app in Hl, Hh. simpl in Hl, Hh.
        assert (is_Some ((ns'.*1 ++ [t]) !! 0%nat)) as [hd Hhd].
        { apply lookup_lt_is_Some. rewrite length_app. simpl. lia. }
        assert (Hgh : getHead s = Ok (Some hd) s).
        { unfold getHead. by rewrite Hh, Hhd. }
        step Hgh.
        assert (Hgp : getPrev (Some hd) s = Ok (Some t) s).
        { apply getPrev_ok. eapply links_prev_first; [exact Hl|done|apply last_snoc]. }
        step Hgp.
        destruct (drop_entry _ _ _ _ _ _ HC) as (s1 & Hrm & Hgk & HC1 & Hm1 & Hc1 & Hs1).
        step Hrm. step Hgk. rewrite app_nil_r in HC1.
        eexists _, ns'. split; [reflexivity|]. split; [exact HC1|].
        rewrite fmap_app. simpl. rewrite removelast_last.
        repeat split; simpl; try done.
        + rewrite Hc1. rewrite length_app in Hfull. simpl in Hfull. lia.
        + rewrite Hs1. destruct (decide (tk = k)) as [->|?].
          * apply lookup_delete_eq.
          * by rewrite lookup_delete_ne.
      - exists s, ns. repeat split; try done; try apply HC.
        destruct HC. lia. }
    destruct Hev as (s1 & ns1 & Hev & HC1 & Hns1 & Hlt & Hk1 & Hm1 & Hc1).
    step Hev.
    destruct (push_entry s1 ns1 k v HC1 Hk1 Hlt) as (a & s2 & Hadd & HC2 & Hm2 & Hc2 & Hs2).
    step Hadd.
    erewrite (bind_ok (storeInsert k a)) by reflexivity. cbv beta. unfold ret.
    eexists _, (ns1 ++ [(a, (k, v))]). split; [reflexivity|].
    split; [exact HC2|]. rewrite fmap_app, Hns1. simpl.
    repeat split; congruence.
Qed.

Lemma walk_path h l z :
  Forall (linked h) (path (l ++ [z])) → walk h (length l) ((l ++ [z]) !! 0%nat) = l.
Proof.
  induction l as [|a l IH]; [done|]. intros Hl. simpl. f_equal.
  assert (is_Some ((l ++ [z]) !! 0%nat)) as [y Hy].
  { apply lookup_lt_is_Some. rewrite length_app. simpl. lia. }
  assert (Hp : path (a :: l ++ [z]) = (a, y) :: path (l ++ [z])).
  { destruct (l ++ [z]); by simplify_eq/=. }
  change (path ((a :: l) ++ [z])) with (path (a :: l ++ [z])) in Hl.
  rewrite Hp in Hl. apply Forall_cons in Hl as [[Hn _] Hl].
  simpl in Hn. rewrite Hn, <-Hy. by apply IH.
Qed.

Lemma walk_ring h l : Forall (linked h) (cyc l) → walk h (length l) (l !! 0%nat) = l.
Proof.
  destruct l as [|x r]; [done|]. rewrite cyc_cons. intros Hl.
  change ((x :: r) !! 0%nat) with (((x :: r) ++ [x]) !! 0%nat).
  by apply walk_path.
Qed.

Lemma Coh_order s ns : Coh s ns → order s = ns.*1.
Proof.
  intros [[_ Hl _ Hh] _ Hsz _ _]. unfold order.
  rewrite Hsz, Hh, <-(length_fmap fst ns). by apply walk_ring.
Qed.

Lemma omap_entries h (ns : list entry) :
  Forall (holds h) ns → omap (entryOf h) ns.*1 = ns.*2.
Proof.
  induction 1 as [|[a [k v]] ns [Hk Hv] _ IH]; [done|]. simpl in *.
  unfold entryOf at 1. unfold keyOf, valueOf in Hk, Hv.
  destruct (h !! a) as [n|]; simplify_eq/=. by rewrite IH.
Qed.

Lemma Coh_contents s ns : Coh s ns → contents s = ns.*2.
Proof.
  intros HC. unfold contents. rewrite (Coh_order _ _ HC).
  apply omap_entries. apply HC.
Qed.

(** All four link facts about a node of a ring. *)
Lemma links_around h l n :
  Forall (linked h) (cyc l) → n ∈ l →
  ∃ nx pv, nextOf h n = Some nx ∧ prevOf h nx = Some n
         ∧ prevOf h n = Some pv ∧ nextOf h pv = Some n.
Proof.
  intros Hl [l1 [l2 ->]]%list_elem_of_split.
  apply (links_rotate _ l1 (n :: l2)) in Hl. simpl in Hl.
  destruct (l2 ++ l1) as [|b r] eqn:E.
  - apply links_single in Hl as [??]. by exists n, n.
  - assert (is_Some (last (b :: r))) as [c Hc] by (by apply last_is_Some).
    rewrite (cyc_cons_ends n (b :: r) b c) in Hl by done.
    apply Forall_cons in Hl as [[H1 H2] [_ [[H3 H4] _]%Forall_cons]%Forall_app].
    by exists b, c.
Qed.

Lemma Coh_integrity s ns : Coh s ns → integrity s.
Proof.
  intros HC. pose proof (Coh_order _ _ HC) as Ho.
  destruct HC as [[Hnd Hl Hd Hh] Hst Hsz Hcap Hpos].
  unfold integrity. rewrite Ho. repeat split.
  - by rewrite Hsz.
  - intros Hn. apply map_size_empty_inv. rewrite Hsz.
    rewrite Hh in Hn. destruct ns; [done|]. by simplify_eq/=.
  - intros He. rewrite Hh. rewrite He, map_size_empty in Hsz.
    symmetry in Hsz. apply length_zero_iff_nil in Hsz. by subst.
  - by rewrite length_fmap.
  - done.
  - intros t Ht. rewrite Hh.
    destruct (ns.*1) as [|hd r] eqn:E; [done|].
    rewrite (cyc_ends (hd :: r) hd t) in Hl by done.
    by apply Forall_app in Hl as [_ [[? _] _]%Forall_cons].
  - intros n Hn. by apply links_around with (l := ns.*1).
  - apply Hst in H as [v Hin]. rewrite Forall_forall in Hd. by apply (Hd _ Hin).
  - apply Hst in H as [v Hin]. by apply (list_elem_of_fmap_2 fst _ (a, (k, v))).
Qed.

(** ** The public functions on a coherent, unlocked cache *)

Lemma locked_sim {A} (body : M A) s ns r P :
  Coh s ns → locked (mutex (cache s)) = false →
  (∀ s0, Coh s0 ns → capacity (cache s0) = capacity (cache s) →
     ∃ s1 ns1, body s0 = Ok r s1 ∧ Coh s1 ns1 ∧ P ns1
             ∧ mutex (cache s1) = mutex (cache s0)
             ∧ capacity (cache s1) = capacity (cache s0)) →
  ∃ s' ns', locking body s = Ok r s' ∧ Coh s' ns' ∧ P ns' ∧ ranOnce s s'.
Proof.
  intros HC Hu Hbody.
  destruct (Hbody (lockSt s)) as (s1 & ns1 & Hrun & HC1 & HP & Hm & Hc).
  { by apply Coh_mutex. } { done. }
  exists (unlockSt s1), ns1. split; [by apply locking_run|].
  split; [by apply Coh_mutex|]. split; [done|].
  unfold ranOnce. simpl. rewrite Hm, Hc. simpl. by rewrite <-app_assoc.
Qed.

Lemma Get_run s ns k :
  Coh s ns → locked (mutex (cache s)) = false →
  ∃ s' ns', Get k s = Ok (aGet k ns.*2).1 s' ∧ Coh s' ns'
          ∧ ns'.*2 = (aGet k ns.*2).2 ∧ ranOnce s s'.
Proof.
  intros HC Hu. rewrite Get_eq.
  apply (locked_sim _ _ _ _ (λ ns', ns'.*2 = (aGet k ns.*2).2) HC Hu).
  intros s0 HC0 _. by apply Get_locked_sim.
Qed.

Lemma Set_run s ns k v :
  Coh s ns → locked (mutex (cache s)) = false →
  ∃ s' ns', Set_ k v s = Ok (aSet (capacity (cache s)) k v ns.*2).1 s' ∧ Coh s' ns'
          ∧ ns'.*2 = (aSet (capacity (cache s)) k v ns.*2).2 ∧ ranOnce s s'.
Proof.
  intros HC Hu. rewrite Set_eq.
  apply (locked_sim _ _ _ _ (λ ns', ns'.*2 = (aSet (capacity (cache s)) k v ns.*2).2) HC Hu).
  intros s0 HC0 Hc0. rewrite <-Hc0. by apply Set_locked_sim.
Qed.

Lemma Delete_run s ns k :
  Coh s ns → locked (mutex (cache s)) = false →
  ∃ s' ns', Delete k s = Ok (aDelete k ns.*2).1 s' ∧ Coh s' ns'
          ∧ ns'.*2 = (aDelete k ns.*2).2 ∧ ranOnce s s'.
Proof.
  intros HC Hu. rewrite Delete_eq.
  apply (locked_sim _ _ _ _ (λ ns', ns'.*2 = (aDelete k ns.*2).2) HC Hu).
  intros s0 HC0 _. by apply Delete_locked_sim.
Qed.

Lemma NewCache_Coh capacity s :
  NewCache capacity = inr s → Coh s [] ∧ locked (mutex (cache s)) = false.
Proof.
  unfold NewCache. case_decide; [done|]. intros [= <-]. split; [|done].
  split; simpl; try done; try lia.
  - apply Ring_nil.
  - intros k a. rewrite lookup_empty. split; [done|]. by intros [? ?%elem_of_nil].
Qed.

Lemma reachable_Coh s :
  reachable s → ∃ ns, Coh s ns ∧ locked (mutex (cache s)) = false.
Proof.
  induction 1 as [c s Hs|k r s s' _ (ns & HC & Hu) Hrun
                 |k v r s s' _ (ns & HC & Hu) Hrun|k r s s' _ (ns & HC & Hu) Hrun].
  - exists []. by eapply NewCache_Coh.
  - destruct (Get_run _ _ k HC Hu) as (s1 & ns1 & Hrun1 & HC1 & _ & Hu1 & _).
    rewrite Hrun in Hrun1. simplify_eq. eauto.
  - destruct (Set_run _ _ k v HC Hu) as (s1 & ns1 & Hrun1 & HC1 & _ & Hu1 & _).
    rewrite Hrun in Hrun1. simplify_eq. eauto.
  - destruct (Delete_run _ _ k HC Hu) as (s1 & ns1 & Hrun1 & HC1 & _ & Hu1 & _).
    rewrite Hrun in Hrun1. simplify_eq. eauto.
Qed.

Lemma alookup_None_inv k es : alookup k es = None → k ∉ es.*1.
Proof.
  induction es as [|[k' v] es IH]; simpl; [intros _; apply not_elem_of_nil|].
  case_decide; [done|]. intros H'. apply not_elem_of_cons. split; [done|]. by apply IH.
Qed.

Lemma alookup_NoDup k v es : NoDup es.*1 → (k, v) ∈ es → alookup k es = Some v.
Proof.
  intros Hnd [es1 [es2 ->]]%list_elem_of_split. apply alookup_middle.
  rewrite fmap_app, fmap_cons in Hnd. apply NoDup_app in Hnd as (_ & Hd & _).
  intros Hin. apply (Hd _ Hin). left.
Qed.

Lemma alookup_aupdate k v es : is_Some (alookup k es) → alookup k (aupdate k v es) = Some v.
Proof.
  induction es as [|[k' v'] es IH]; simpl; [by intros [? ?]|].
  case_decide; simpl.
  - by rewrite decide_True.
  - rewrite decide_False by done. apply IH.
Qed.

Lemma not_in_removelast {A} (x : A) (l : list A) : x ∉ l → x ∉ removelast l.
Proof.
  induction l as [|y l' _] using rev_ind; [by simpl|].
  rewrite removelast_last. intros Hn Hin. apply Hn, elem_of_app. by left.
Qed.

Lemma fmap_removelast {A B} (f : A → B) (l : list A) :
  f <$> removelast l = removelast (f <$> l).
Proof.
  induction l as [|y l' _] using rev_ind; [done|].
  rewrite fmap_app. simpl. by rewrite !removelast_last.
Qed.

(** The key just set is found, with the value just set. *)
Lemma aGet_aSet cap k v es : (aGet k (aSet cap k v es).2).1 = (v, true).
Proof.
  unfold aSet. destruct (alookup k es) as [v0|] eqn:E; simpl.
  - unfold aGet. rewrite alookup_aupdate by (rewrite E; eauto). done.
  - apply alookup_None_inv in E. unfold aGet.
    rewrite (alookup_middle k v _ []); [done|].
    case_decide; [|done]. rewrite fmap_removelast. by apply not_in_removelast.
Qed.

Lemma aSetAll_cons cap k v r es :
  aSetAll cap ((k, v) :: r) es = aSetAll cap r (aSet cap k v es).2.
Proof. done. Qed.

Lemma aSetAll_app cap l1 l2 es :
  aSetAll cap (l1 ++ l2) es = aSetAll cap l2 (aSetAll cap l1 es).
Proof. apply foldl_app. Qed.

Lemma aSetAll_fresh cap kvs es :
  NoDup (es ++ kvs).*1 → (Z.of_nat (length (es ++ kvs)) ≤ cap)%Z →
  aSetAll cap kvs es = es ++ kvs.
Proof.
  revert es. induction kvs as [|[k v] r IH]; intros es Hnd Hlen.
  - by rewrite app_nil_r.
  - rewrite aSetAll_cons.
    assert (k ∉ es.*1).
    { rewrite fmap_app, fmap_cons in Hnd. apply NoDup_app in Hnd as (_ & Hd & _).
      intros Hin. apply (Hd _ Hin). left. }
    unfold aSet. rewrite alookup_None by done. simpl.
    rewrite length_app in Hlen. simpl in Hlen.
    rewrite decide_False by lia.
    rewrite IH; rewrite <-app_assoc; try done.
    rewrite length_app. simpl. lia.
Qed.

(** Filling a cache of capacity [N] with [N] new keys and then setting one
    more: the key set last before it is the one that goes. *)
Lemma aSetAll_overflow cap front x y :
  NoDup (front ++ [x; y]).*1 → (Z.of_nat (length front) + 1 = cap)%Z →
  aSetAll cap (front ++ [x; y]) [] = front ++ [y].
Proof.
  intros Hnd Hlen.
  replace (front ++ [x; y]) with ((front ++ [x]) ++ [y]) in * by (by rewrite <-app_assoc).
  rewrite aSetAll_app.
  rewrite (aSetAll_fresh cap (front ++ [x]) []).
  - destruct y as [k v]. rewrite aSetAll_cons. unfold aSetAll, aSet. simpl.
    rewrite alookup_None.
    + simpl. rewrite decide_True, removelast_last; [done|].
      rewrite length_app. simpl. lia.
    + rewrite fmap_app in Hnd. apply NoDup_app in Hnd as (_ & Hd & _).
      intros Hin. apply (Hd _ Hin). simpl. left.
  - rewrite fmap_app in Hnd. simpl. by apply NoDup_app in Hnd as (? & _ & _).
  - simpl. rewrite length_app. simpl. lia.
Qed.

Lemma setAll_run kvs s ns :
  Coh s ns → locked (mutex (cache s)) = false →
  ∃ s' ns', setAll kvs s = Ok tt s' ∧ Coh s' ns'
          ∧ locked (mutex (cache s')) = false
          ∧ capacity (cache s') = capacity (cache s)
          ∧ ns'.*2 = aSetAll (capacity (cache s)) kvs ns.*2.
Proof.
  revert s ns. induction kvs as [|[k v] r IH]; intros s ns HC Hu.
  - exists s, ns. done.
  - destruct (Set_run _ _ k v HC Hu) as (s1 & ns1 & Hrun & HC1 & Hns1 & Hu1 & _ & Hc1).
    destruct (IH s1 ns1 HC1 Hu1) as (s2 & ns2 & Hrun2 & HC2 & Hu2 & Hc2 & Hns2).
    exists s2, ns2. change (setAll ((k, v) :: r)) with (Set_ k v ;; setAll r).
    rewrite (bind_ok _ _ _ _ _ Hrun).
    split; [done|]. split; [done|]. split; [done|]. split; [congruence|].
    by rewrite aSetAll_cons, Hns2, Hns1, Hc1.
Qed.

Lemma Coh_keys_NoDup s ns : Coh s ns → NoDup ns.*2.*1.
Proof.
  intros [[Hnd _ _ _] Hst _ _ _].
  apply NoDup_alt. intros i j k' Hi Hj.
  rewrite !list_lookup_fmap in Hi, Hj.
  destruct (ns !! i) as [[b [k1 v1]]|] eqn:Ei; [|done].
  destruct (ns !! j) as [[c [k2 v2]]|] eqn:Ej; [|done]. simpl in *.
  assert (k1 = k') by congruence. assert (k2 = k') by congruence. subst k1 k2.
  assert (store (cache s) !! k' = Some b) as Hb.
  { apply Hst. exists v1. by eapply list_elem_of_lookup_2. }
  assert (store (cache s) !! k' = Some c) as Hc.
  { apply Hst. exists v2. by eapply list_elem_of_lookup_2. }
  assert (b = c) by congruence. subst c.
  eapply NoDup_lookup; [exact Hnd| |]; rewrite list_lookup_fmap.
  - by rewrite Ei. - by rewrite Ej.
Qed.

Lemma keeps_bind {A B} (m : M A) (k : A → M B) :
  keepsMutex m → (∀ a, keepsMutex (k a)) → keepsMutex (bind m k).
Proof.
  intros Hm Hk s r s'. unfold bind. destruct (m s) as [a s1|] eqn:E; [|done].
  intros H. rewrite (Hk _ _ _ _ H). by eapply Hm.
Qed.

Lemma keeps_ret {A} (a : A) : keepsMutex (ret a).
Proof. intros s r s' H. by inversion H. Qed.

Lemma keeps_load p : keepsMutex (load p).
Proof.
  intros s r s'. unfold load. destruct p; [|done].
  destruct (heap s !! _); [|done]. by intros [= _ <-].
Qed.

Lemma keeps_update p f : keepsMutex (update p f).
Proof.
  apply keeps_bind; [apply keeps_load|]. intros n s r s'.
  destruct p; [|done]. by intros [= _ <-].
Qed.

Lemma keeps_get {A} p (f : cacheNode → A) : keepsMutex (do n <- load p; ret (f n)).
Proof. apply keeps_bind; [apply keeps_load|]. intros. apply keeps_ret. Qed.

Lemma keeps_getHead : keepsMutex getHead.
Proof. intros s r s' H. by inversion H. Qed.
Lemma keeps_setHead h : keepsMutex (setHead h).
Proof. intros s r s' H. by inversion H. Qed.
Lemma keeps_storeLookup k : keepsMutex (storeLookup k).
Proof. intros s r s' H. by inversion H. Qed.
Lemma keeps_storeInsert k a : keepsMutex (storeInsert k a).
Proof. intros s r s' H. by inversion H. Qed.
Lemma keeps_storeDelete k : keepsMutex (storeDelete k).
Proof. intros s r s' H. by inversion H. Qed.
Lemma keeps_storeLen : keepsMutex storeLen.
Proof. intros s r s' H. by inversion H. Qed.
Lemma keeps_getCapacity : keepsMutex getCapacity.
Proof. intros s r s' H. by inversion H. Qed.
Lemma keeps_alloc : keepsMutex alloc.
Proof. intros s r s' H. by inversion H. Qed.

Create HintDb keeps.
#[local] Hint Resolve keeps_ret keeps_load keeps_update keeps_get keeps_getHead
  keeps_setHead keeps_storeLookup keeps_storeInsert keeps_storeDelete
  keeps_storeLen keeps_getCapacity keeps_alloc : keeps.










Lemma reachable_contents_lookup s ns k a :
  Coh s ns → store (cache s) !! k = Some a → is_Some (alookup k (contents s)).
Proof.
  intros HC Hk. rewrite (Coh_contents _ _ HC).
  destruct (Coh_store_split _ _ _ _ HC Hk) as (ns1 & v & ns2 & ->).
  pose proof (Coh_key_not_before _ _ _ _ _ _ HC).
  rewrite fmap_app, fmap_cons. simpl. rewrite alookup_middle by done. eauto.
Qed.

(** The public functions, on a reachable state, in terms of [contents]. *)
Lemma Get_contents s k :
  reachable s →
  ∃ s', Get k s = Ok (aGet k (contents s)).1 s'
      ∧ contents s' = (aGet k (contents s)).2 ∧ reachable s'.
Proof.
  intros Hr. destruct (reachable_Coh _ Hr) as (ns & HC & Hu).
  destruct (Get_run _ _ k HC Hu) as (s' & ns' & Hrun & HC' & Hns & _).
  exists s'. rewrite (Coh_contents _ _ HC), (Coh_contents _ _ HC').
  repeat split; try done. by eapply reach_Get.
Qed.

Lemma Set_contents s k v :
  reachable s →
  ∃ s', Set_ k v s = Ok (aSet (capacity (cache s)) k v (contents s)).1 s'
      ∧ contents s' = (aSet (capacity (cache s)) k v (contents s)).2
      ∧ capacity (cache s') = capacity (cache s) ∧ reachable s'.
Proof.
  intros Hr. destruct (reachable_Coh _ Hr) as (ns & HC & Hu).
  destruct (Set_run _ _ k v HC Hu) as (s' & ns' & Hrun & HC' & Hns & _ & _ & Hc).
  exists s'. rewrite (Coh_contents _ _ HC), (Coh_contents _ _ HC').
  repeat split; try done. by eapply reach_Set.
Qed.

Lemma Delete_contents s k :
  reachable s →
  ∃ s', Delete k s = Ok (aDelete k (contents s)).1 s'
      ∧ contents s' = (aDelete k (contents s)).2 ∧ reachable s'.
Proof.
  intros Hr. destruct (reachable_Coh _ Hr) as (ns & HC & Hu).
  destruct (Delete_run _ _ k HC Hu) as (s' & ns' & Hrun & HC' & Hns & _).
  exists s'. rewrite (Coh_contents _ _ HC), (Coh_contents _ _ HC').
  repeat split; try done. by eapply reach_Delete.
Qed.

Lemma reachable_integrity s : reachable s → integrity s.
Proof. intros (ns & HC & _)%reachable_Coh. by eapply Coh_integrity. Qed.

Lemma reachable_keys_NoDup s : reachable s → NoDup (contents s).*1.
Proof.
  intros (ns & HC & _)%reachable_Coh. rewrite (Coh_contents _ _ HC).
  by eapply Coh_keys_NoDup.
Qed.

(** C1 as written fails: with capacity 2 and set(a,1), set(b,2), set(c,3),
    the calls get(a), get(b), get(c) do not return (_, false), (2, true),
    (3, true). *)
Lemma C1_counterexample :
  ¬ ∃ va, result script1 (NewCache 2)
          = Some ((va, false), ("2"%string, true), ("3"%string, true)).
Proof. intros [va H]. vm_compute in H. discriminate H. Qed.

(** C1: in a cache built with capacity N, setting N+1 distinct new keys in
    order, with no get in between, evicts exactly the key set just before
    the last one (the N-th), and keeps every other key, the first included;
    new keys enter at the tail, and the tail is what eviction removes.  With
    capacity 2 and set(a,1), set(b,2), set(c,3): get(a) = (1, true),
    get(b) = ("", false), get(c) = (3, true). *)
Theorem C1_set_evicts_latest_new_key (cap : Z) (front : list (string * string))
    (x y : string * string) (s0 : State) :
  NewCache cap = inr s0 →
  (Z.of_nat (length front) + 1 = cap)%Z →
  NoDup (front ++ [x; y]).*1 →
  (∃ s, setAll (front ++ [x; y]) s0 = Ok tt s
      ∧ contents s = front ++ [y]
      ∧ yields (Get x.1) s (""%string, false)
      ∧ ∀ k v, (k, v) ∈ front ++ [y] → yields (Get k) s (v, true))
  ∧ result script1 (NewCache 2)
    = Some (("1"%string, true), (""%string, false), ("3"%string, true)).
Proof.
  intros Hnew Hlen Hnd. split; [|by vm_compute].
  destruct (NewCache_Coh _ _ Hnew) as [HC Hu].
  destruct (setAll_run (front ++ [x; y]) _ _ HC Hu) as (s & ns & Hrun & HCs & Hus & Hc & Hns).
  assert (Hcap : capacity (cache s0) = cap).
  { unfold NewCache in Hnew. case_decide; [done|]. by simplify_eq. }
  simpl in Hns. rewrite Hcap, aSetAll_overflow in Hns by done.
  assert (Hcont : contents s = front ++ [y]) by (by rewrite (Coh_contents _ _ HCs)).
  assert (Hkeys : NoDup (front ++ [y]).*1).
  { rewrite <-Hns. by eapply Coh_keys_NoDup. }
  exists s. split; [done|]. split; [done|]. split.
  - destruct (Get_run _ _ x.1 HCs Hus) as (s' & _ & Hget & _).
    exists s'. rewrite Hget, Hns. unfold aGet. rewrite alookup_None; [done|].
    rewrite !fmap_app in Hnd. simpl in Hnd.
    apply NoDup_app in Hnd as (_ & Hd & [Hx _]%NoDup_cons).
    rewrite fmap_app. simpl. intros [Hin|Hin]%elem_of_app.
    + apply (Hd _ Hin). left.
    + apply Hx. done.
  - intros k v Hin. destruct (Get_run _ _ k HCs Hus) as (s' & _ & Hget & _).
    exists s'. rewrite Hget, Hns. unfold aGet.
    by rewrite (alookup_NoDup k v).
Qed.

Lemma C1_witness :
  ∃ s0, NewCache 2 = inr s0
      ∧ ∃ s, setAll [("a", "1"); ("b", "2"); ("c", "3")]%string s0 = Ok tt s
           ∧ contents s = [("a", "1"); ("c", "3")]%string.
Proof.
  eexists. split; [reflexivity|].
  destruct (C1_set_evicts_latest_new_key 2 [("a", "1")]%string ("b", "2")%string
              ("c", "3")%string _ eq_refl) as [(s & Hrun & Hc & _) _].
  - reflexivity.
  - simpl. repeat constructor; set_solver.
  - exists s. split; [exact Hrun|exact Hc].
Defined.

Lemma walk_ext h h' n p :
  (∀ x, nextOf h' x = nextOf h x) → walk h' n p = walk h n p.
Proof.
  intros Hn. revert p. induction n as [|n IH]; intros [a|]; simpl; try done.
  by rewrite Hn, IH.
Qed.

(** [Set] on a key of the store, run step by step. *)
Lemma Set_update_run s k v a n :
  locked (mutex (cache s)) = false →
  store (cache s) !! k = Some a → heap s !! a = Some n →
  Set_ k v s
  = Ok true (unlockSt (withHeap (insert a (mkNode (prev n) (next n) v (key n))) (lockSt s))).
Proof.
  intros Hu Hk Hn. unfold Set_, Set_locked, locking, Lock, Unlock, storeLookup, setValue,
    update, load, ret, bind, unlockSt, lockSt, withMutex, withCache, withHeap.
  rewrite Hu. simpl. rewrite Hk. simpl. rewrite Hn. reflexivity.
Qed.

(** C2 as written fails: after capacity 2, set(a,1), set(b,2), set(a,9),
    set(c,3) it is not the case that get(a) misses while b and c are found. *)
Lemma C2_counterexample :
  ¬ ∃ va vb vc, result script2 (NewCache 2) = Some ((va, false), (vb, true), (vc, true)).
Proof. intros (va & vb & vc & H). vm_compute in H. discriminate H. Qed.

(** C6: set on a key already present returns updated = true and overwrites
    only the value field of that key's node: the heap changes at that one
    address, head, store and capacity are the same, the order of the list
    and all other keys and values are the same, Len is the same, and nothing
    is evicted, whatever the fill level. *)
Theorem C6_set_existing_key_in_place (s : State) (k v : string) (a : loc) :
  reachable s → store (cache s) !! k = Some a →
  ∃ n s', heap s !! a = Some n
    ∧ Set_ k v s = Ok true s'
    ∧ heap s' = <[a := mkNode (prev n) (next n) v (key n)]> (heap s)
    ∧ head (cache s') = head (cache s)
    ∧ store (cache s') = store (cache s)
    ∧ capacity (cache s') = capacity (cache s)
    ∧ order s' = order s
    ∧ contents s' = aupdate k v (contents s)
    ∧ (∃ len, Len s = Ok len s ∧ Len s' = Ok len s').
Proof.
  intros Hr Hk. destruct (reachable_Coh _ Hr) as (ns & HC & Hu).
  assert (is_Some (heap s !! a)) as [n Hn].
  { destruct (Coh_store_split _ _ _ _ HC Hk) as (ns1 & v0 & ns2 & ->).
    apply (Ring_defined _ _ _ a (coh_ring _ _ HC)).
    rewrite fmap_app, fmap_cons. set_solver. }
  exists n. eexists. split; [done|]. split; [by apply Set_update_run|].
  simpl. repeat split; try done.
  - unfold order. simpl. apply walk_ext. intros x. unfold nextOf.
    rewrite lookup_insert. case_decide; simplify_eq; [by rewrite Hn|done].
  - destruct (Set_contents s k v Hr) as (s' & Hrun & Hcont & _).
    rewrite (Set_update_run _ _ _ _ _ Hu Hk Hn) in Hrun. injection Hrun as _ <-.
    rewrite Hcont. unfold aSet.
    by destruct (reachable_contents_lookup _ _ _ _ HC Hk) as [v0 ->].
  - eexists. split; reflexivity.
Qed.

Lemma demo0_reachable : reachable demo0.
Proof. by apply (reach_NewCache 2). Qed.

Lemma demo1_reachable : reachable demo1.
Proof.
  apply (reach_Set "a" "1" false demo0 demo1); [apply demo0_reachable|].
  vm_compute. reflexivity.
Qed.

Lemma demo2_reachable : reachable demo2.
Proof.
  apply (reach_Set "b" "2" false demo1 demo2); [apply demo1_reachable|].
  vm_compute. reflexivity.
Qed.

Lemma C6_witness :
  ∃ n s', heap demo2 !! 0%nat = Some n
    ∧ Set_ "a" "9" demo2 = Ok true s'
    ∧ store (cache s') = store (cache demo2)
    ∧ order s' = order demo2
    ∧ contents s' = aupdate "a" "9" (contents demo2).
Proof.
  destruct (C6_set_existing_key_in_place demo2 "a" "9" 0%nat demo2_reachable)
    as (n & s' & Hn & Hrun & _ & _ & Hst & _ & Ho & Hc & _).
  - vm_compute. reflexivity.
  - exists n, s'. repeat split; assumption.
Defined.

(** C2: setting a key that is present changes its value and leaves every
    key at its place in the list, so in capacity 2, set(a,1), set(b,2),
    set(a,9), set(c,3) the final set evicts the tail b, as it does without
    the update: get(a) = (9, true), get(b) = ("", false), get(c) = (3, true). *)
Theorem C2_update_keeps_position_tail_evicted (s : State) (k v v0 : string) :
  reachable s → alookup k (contents s) = Some v0 →
  (∃ s', Set_ k v s = Ok true s'
       ∧ contents s' = aupdate k v (contents s)
       ∧ (contents s').*1 = (contents s).*1)
  ∧ result script2 (NewCache 2)
    = Some (("9"%string, true), (""%string, false), ("3"%string, true)).
Proof.
  intros Hr Hk. split; [|by vm_compute].
  destruct (Set_contents s k v Hr) as (s' & Hrun & Hcont & _).
  unfold aSet in Hrun, Hcont. rewrite Hk in Hrun, Hcont. simpl in *.
  exists s'. split; [done|]. split; [done|]. rewrite Hcont.
  clear. induction (contents s) as [|[k' v'] es IH]; simpl; [done|].
  case_decide; simpl; [by subst|]. f_equal. exact IH.
Qed.

Lemma C2_witness :
  ∃ s', Set_ "a" "9" demo2 = Ok true s'
      ∧ contents s' = aupdate "a" "9" (contents demo2).
Proof.
  destruct (C2_update_keeps_position_tail_evicted demo2 "a" "9" "1" demo2_reachable)
    as [(s' & Hrun & Hc & _) _].
  - vm_compute. reflexivity.
  - exists s'. split; assumption.
Defined.

(** C4: on every state reached from NewCache by public calls, set(k, v)
    followed at once by get(k) returns (v, true). *)
Theorem C4_set_then_get (s : State) (k v : string) :
  reachable s →
  ∃ r s1 s2, Set_ k v s = Ok r s1 ∧ Get k s1 = Ok (v, true) s2.
Proof.
  intros Hr. destruct (Set_contents s k v Hr) as (s1 & Hset & Hc1 & _ & Hr1).
  destruct (Get_contents s1 k Hr1) as (s2 & Hget & _).
  rewrite Hc1, aGet_aSet in Hget. eauto.
Qed.

Lemma C4_witness :
  ∃ r s1 s2, Set_ "c" "3" demo2 = Ok r s1 ∧ Get "c" s1 = Ok ("3"%string, true) s2.
Proof. exact (C4_set_then_get demo2 "c" "3" demo2_reachable). Defined.

(** C5: get on a present key returns its value and moves the key to the
    head of the list, the rest keeping their order; so in capacity 2,
    set(a,1), set(b,2), get(a), set(c,3) the final set evicts b and not a:
    get(a) = (1, true), get(b) = ("", false), get(c) = (3, true). *)
Theorem C5_get_promotes (s : State) (k v : string) :
  reachable s → alookup k (contents s) = Some v →
  (∃ s', Get k s = Ok (v, true) s' ∧ contents s' = (k, v) :: aremove k (contents s))
  ∧ result script5 (NewCache 2)
    = Some (("1"%string, true), (""%string, false), ("3"%string, true)).
Proof.
  intros Hr Hk. split; [|by vm_compute].
  destruct (Get_contents s k Hr) as (s' & Hrun & Hcont & _).
  unfold aGet in Hrun, Hcont. rewrite Hk in Hrun, Hcont. eauto.
Qed.

Lemma C5_witness :
  ∃ s', Get "b" demo2 = Ok ("2"%string, true) s'
      ∧ contents s' = [("b", "2"); ("a", "1")]%string.
Proof.
  destruct (C5_get_promotes demo2 "b" "2" demo2_reachable) as [(s' & Hrun & Hc) _].
  - vm_compute. reflexivity.
  - exists s'. split; [exact Hrun|]. rewrite Hc. vm_compute. reflexivity.
Defined.

Lemma public_total s k v :
  reachable s →
  (∃ r s', Get k s = Ok r s') ∧ (∃ r s', Set_ k v s = Ok r s')
  ∧ (∃ r s', Delete k s = Ok r s').
Proof.
  intros Hr.
  destruct (Get_contents s k Hr) as (s1 & H1 & _).
  destruct (Set_contents s k v Hr) as (s2 & H2 & _).
  destruct (Delete_contents s k Hr) as (s3 & H3 & _). eauto 10.
Qed.

(** C7: NewCache returns an error exactly when the capacity is <= 0; for a
    capacity > 0 it returns a cache with an empty store, a nil head and the
    capacity given; and on every state reached from there Get, Set, Delete,
    Capacity and Len all return, none of them with a fault. *)
Theorem C7_only_construction_fails (s : State) (k v : string) :
  reachable s →
  (∀ c, (∃ e, NewCache c = inl e) ↔ (c ≤ 0)%Z)
  ∧ (∀ c, (0 < c)%Z →
       ∃ s0, NewCache c = inr s0 ∧ store (cache s0) = ∅
           ∧ head (cache s0) = None ∧ capacity (cache s0) = c)
  ∧ (∃ r s', Get k s = Ok r s')
  ∧ (∃ r s', Set_ k v s = Ok r s')
  ∧ (∃ r s', Delete k s = Ok r s')
  ∧ Capacity s = Ok (capacity (cache s)) s
  ∧ Len s = Ok (Z.of_nat (size (store (cache s)))) s.
Proof.
  intros Hr. split; [|split].
  - intros c. unfold NewCache. case_decide; split.
    + done.
    + eauto.
    + by intros [? ?].
    + lia.
  - intros c Hc. unfold NewCache. rewrite decide_False by lia. eauto.
  - destruct (public_total s k v Hr) as (? & ? & ?). done.
Qed.

Lemma C7_witness :
  (∃ e, NewCache 0 = inl e) ∧ (∃ r s', Delete "a" demo2 = Ok r s').
Proof.
  destruct (C7_only_construction_fails demo2 "a" "1" demo2_reachable)
    as (Hnew & _ & _ & _ & Hdel & _).
  split; [apply Hnew; lia|exact Hdel].
Defined.

Lemma Get_miss s k :
  locked (mutex (cache s)) = false → store (cache s) !! k = None →
  Get k s = Ok (""%string, false) (unlockSt (lockSt s)).
Proof.
  intros Hu Hk. unfold Get, Get_locked, locking, Lock, Unlock, storeLookup, ret, bind.
  rewrite Hu. simpl. rewrite Hk. reflexivity.
Qed.

Lemma Delete_miss s k :
  locked (mutex (cache s)) = false → store (cache s) !! k = None →
  Delete k s = Ok false (unlockSt (lockSt s)).
Proof.
  intros Hu Hk. unfold Delete, Delete_locked, locking, Lock, Unlock, storeLookup, ret, bind.
  rewrite Hu. simpl. rewrite Hk. reflexivity.
Qed.

(** C8: for a key absent from the store (and the mutex free), get returns
    ("", false) and delete returns false, and head, store, capacity and the
    node heap are what they were: same list order, same contents, same Len. *)
Theorem C8_absent_key_no_effect (s : State) (k : string) :
  locked (mutex (cache s)) = false → store (cache s) !! k = None →
  ∃ s1 s2,
    Get k s = Ok (""%string, false) s1 ∧ Delete k s = Ok false s2
    ∧ sameButHistory s s1 ∧ sameButHistory s s2
    ∧ order s1 = order s ∧ order s2 = order s
    ∧ contents s1 = contents s ∧ contents s2 = contents s
    ∧ (∃ len, Len s = Ok len s ∧ Len s1 = Ok len s1 ∧ Len s2 = Ok len s2).
Proof.
  intros Hu Hk. exists (unlockSt (lockSt s)), (unlockSt (lockSt s)).
  split; [|split].
  - by apply Get_miss.
  - by apply Delete_miss.
  - repeat split; simpl; try done. eexists. repeat split.
Qed.

Lemma C8_witness :
  ∃ s1 s2, Get "zz" demo2 = Ok (""%string, false) s1
         ∧ Delete "zz" demo2 = Ok false s2
         ∧ heap s1 = heap demo2 ∧ heap s2 = heap demo2.
Proof.
  destruct (C8_absent_key_no_effect demo2 "zz")
    as (s1 & s2 & Hg & Hd & (_ & _ & _ & Hh1 & _) & (_ & _ & _ & Hh2 & _) & _).
  - vm_compute. reflexivity.
  - vm_compute. reflexivity.
  - exists s1, s2. repeat split; assumption.
Defined.






(** C10: the two revisions of Get are not equivalent.  After set(a,1) a
    first get(a) returns (1, true) in both, but the CacheNode revision rebuilt
    the node with an empty value, so a second get(a) returns ("", true) there
    and (1, true) in the cacheNode revision. *)
Theorem C10_second_get_differs :
  result (scriptGetTwice Get) (NewCache 2)
    = Some (("1"%string, true), ("1"%string, true))
  ∧ result (scriptGetTwice CacheNodeVariant.Get) (NewCache 2)
    = Some (("1"%string, true), (""%string, true)).
Proof. split; by vm_compute. Qed.

Lemma links_next_middle h pre x suf hd :
  Forall (linked h) (cyc (pre ++ x :: suf)) → (pre ++ x :: suf) !! 0%nat = Some hd →
  nextOf h x = (suf ++ [hd]) !! 0%nat.
Proof.
  intros Hl Hhd.
  assert (cyc (pre ++ x :: suf) = path (pre ++ [x]) ++ path (x :: suf ++ [hd])) as E.
  { rewrite <-(path_app pre x (suf ++ [hd])).
    destruct pre as [|p pre]; simpl in Hhd; simplify_eq.
    - cbn [app]. by rewrite cyc_cons.
    - change ((hd :: pre) ++ x :: suf) with (hd :: (pre ++ x :: suf)).
      rewrite cyc_cons, <-app_assoc. done. }
  rewrite E in Hl. apply Forall_app in Hl as [_ Hl].
  destruct (suf ++ [hd]) as [|y r] eqn:Ey.
  - by destruct suf.
  - by apply Forall_cons in Hl as [[? _] _].
Qed.

Lemma verifyLoop_ring s ns pre suf hd :
  Coh s ns → ns.*1 = pre ++ suf → ns.*1 !! 0%nat = Some hd →
  verifyLoop (S (length suf)) s (list_to_set pre) (length pre) ((suf ++ [hd]) !! 0%nat)
  = inr (list_to_set ns.*1).
Proof.
  intros HC. revert pre. induction suf as [|x suf IH]; intros pre Hsplit Hhd.
  - rewrite app_nil_r in Hsplit. subst pre. simpl.
    rewrite decide_True.
    + rewrite decide_True; [done|]. rewrite length_fmap. symmetry. apply HC.
    + apply elem_of_list_to_set. by eapply list_elem_of_lookup_2.
  - pose proof HC as [[Hnd Hl Hd _] Hst Hsz _ _].
    assert (Hx : x ∈ ns.*1) by (rewrite Hsplit; set_solver).
    destruct (links_around _ _ _ Hl Hx) as (nx & pv & Hn & Hpn & Hp & Hnp).
    apply list_elem_of_fmap in Hx as ([x' [k v]] & Heq & Hin). simpl in Heq. subst x'.
    rewrite Forall_forall in Hd. destruct (Hd _ Hin) as [Hk _]. simpl in Hk.
    assert (Hs : store (cache s) !! k = Some x) by (apply Hst; eauto).
    cbn [verifyLoop app lookup list_lookup].
    rewrite decide_False.
    2:{ rewrite elem_of_list_to_set. rewrite Hsplit in Hnd.
        apply NoDup_app in Hnd as (_ & Hdisj & _). intros Hp'. apply (Hdisj _ Hp'). left. }
    rewrite Hn, Hp. rewrite !decide_True by done. rewrite Hk, Hs.
    rewrite decide_True by done.
    rewrite decide_False.
    2:{ rewrite Hsz, <-(length_fmap fst ns), Hsplit, length_app. simpl. lia. }
    assert (Hnx : Some nx = (suf ++ [hd]) !! 0%nat).
    { rewrite <-Hn. apply (links_next_middle _ pre x suf hd); by rewrite <-Hsplit. }
    rewrite Hnx.
    replace ({[x]} ∪ list_to_set pre : gset nat) with (list_to_set (pre ++ [x]) : gset nat)
      by (rewrite list_to_set_app_L; set_solver).
    replace (S (length pre)) with (length (pre ++ [x])) by (rewrite length_app; simpl; lia).
    apply IH; [|done]. by rewrite <-app_assoc.
Qed.

Lemma Coh_verifyIntegrity s ns : Coh s ns → verifyIntegrity s = None.
Proof.
  intros HC. pose proof HC as [[_ _ _ Hh] Hst Hsz Hcap _].
  unfold verifyIntegrity. cbv zeta. case_decide as Hz.
  - rewrite Hsz in Hz. apply length_zero_iff_nil in Hz. subst ns. by rewrite Hh.
  - rewrite decide_False by (rewrite Hsz; lia).
    assert (is_Some (ns.*1 !! 0%nat)) as [hd Hhd].
    { apply lookup_lt_is_Some. rewrite length_fmap. lia. }
    pose proof (verifyLoop_ring s ns [] ns.*1 hd HC eq_refl Hhd) as Hloop.
    rewrite length_fmap, <-Hsz in Hloop.
    replace ((ns.*1 ++ [hd]) !! 0%nat) with (head (cache s)) in Hloop.
    2:{ rewrite Hh, Hhd. destruct (ns.*1); by simplify_eq/=. }
    change (verifyLoop (S (size (store (cache s)))) s ∅ 0 (head (cache s))
            = inr (list_to_set ns.*1)) in Hloop.
    rewrite Hloop. rewrite decide_True; [done|].
    intros k a Hk. apply elem_of_list_to_set.
    apply Hst in Hk as [v Hin]. by apply (list_elem_of_fmap_2 fst _ (a, (k, v))).
Qed.

(** The loop never runs out of rounds. *)
Lemma verifyLoop_budget s fuel visited nodeCount current :
  (nodeCount + fuel = S (size (store (cache s))))%nat → (0 < fuel)%nat →
  verifyLoop fuel s visited nodeCount current ≠ inl LoopBudget.
Proof.
  revert visited nodeCount current.
  induction fuel as [|fuel IH]; intros visited nodeCount current Hsum Hpos; [lia|].
  simpl. repeat (case_match; try done).
  apply IH; lia.
Qed.

Lemma verifyIntegrity_budget s : verifyIntegrity s ≠ Some LoopBudget.
Proof.
  unfold verifyIntegrity. cbv zeta. repeat (case_match; try done).
  intros [= ->]. eapply verifyLoop_budget; [| |eassumption]; lia.
Qed.

Lemma reachable_sound s : reachable s → sound s.
Proof.
  intros (ns & HC & _)%reachable_Coh. split.
  - by eapply Coh_integrity.
  - by eapply Coh_verifyIntegrity.
Qed.

(** C3: on every state reached from NewCache by public calls, and after
    each further Get, Set or Delete on it, the integrity invariant holds:
    |store| <= capacity; head is nil iff the store is empty; following next
    from head visits |store| distinct nodes and comes back to head; each
    visited node n has n.next.prev = n and n.prev.next = n; every key k of
    the store maps to a visited node whose key is k; and verifyIntegrity
    returns nil. *)
Theorem C3_integrity_after_every_operation (s : State) :
  reachable s →
  sound s
  ∧ (∀ k, ∃ r s', Get k s = Ok r s' ∧ sound s')
  ∧ (∀ k v, ∃ r s', Set_ k v s = Ok r s' ∧ sound s')
  ∧ (∀ k, ∃ r s', Delete k s = Ok r s' ∧ sound s').
Proof.
  intros Hr. split; [by apply reachable_sound|]. split; [|split].
  - intros k. destruct (Get_contents s k Hr) as (s' & Hrun & _ & Hr').
    eexists _, s'. split; [exact Hrun|]. by apply reachable_sound.
  - intros k v. destruct (Set_contents s k v Hr) as (s' & Hrun & _ & _ & Hr').
    eexists _, s'. split; [exact Hrun|]. by apply reachable_sound.
  - intros k. destruct (Delete_contents s k Hr) as (s' & Hrun & _ & Hr').
    eexists _, s'. split; [exact Hrun|]. by apply reachable_sound.
Qed.

Lemma C3_witness : sound demo2 ∧ ∃ r s', Delete "a" demo2 = Ok r s' ∧ sound s'.
Proof.
  destruct (C3_integrity_after_every_operation demo2 demo2_reachable)
    as (H0 & _ & _ & Hd).
  split; [exact H0|exact (Hd "a"%string)].
Defined.

(** The test helper does tell a broken list from a sound one. *)
Example verifyIntegrity_detects :
  verifyIntegrity (mkState (mkCache (mkMutex false []) (Some 0%nat) 2
                             {[ "a"%string := 0%nat ]})
                           {[ 0%nat := mkNode (Some 0%nat) None "1" "a" ]})
  = Some NilPointer.
Proof. vm_compute. reflexivity. Qed.

(** The steps of [TestEviction] in the sequential tests, each followed by the
    [Get] of its check key, with what each [Get] finds.  The last step sets
    key4 after key2 was updated: the tail is then key2, so key3 is still
    found. *)
Example TestEviction_sequential_steps :
  result (Set_ "key1" "value1" ;; do g1 <- Get "key1";
          Set_ "key2" "value2" ;; do g2 <- Get "key2";
          Set_ "key3" "value3" ;; do g3 <- Get "key1";
          do g4 <- Get "key2";
          do g5 <- Get "key3";
          Set_ "key2" "hi" ;; do g6 <- Get "nonexistent";
          Set_ "key4" "value" ;; do g7 <- Get "key3";
          ret [g1.2; g2.2; g3.2; g4.2; g5.2; g6.2; g7.2]) (NewCache 2)
  = Some [true; true; false; true; true; false; true].
Proof. vm_compute. reflexivity. Qed.

(** ** Laws of the public functions *)

Lemma alookup_aremove_eq k es : NoDup es.*1 → alookup k (aremove k es) = None.
Proof.
  induction es as [|[k' v] es IH]; simpl; [done|]. intros [Hk Hnd]%NoDup_cons.
  case_decide; simpl.
  - subst. by apply alookup_None.
  - rewrite decide_False by done. by apply IH.
Qed.

Lemma alookup_aremove_ne k k' es : k' ≠ k → alookup k' (aremove k es) = alookup k' es.
Proof.
  intros Hne. induction es as [|[k0 v] es IH]; simpl; [done|].
  case_decide; simpl.
  - subst. by rewrite decide_False.
  - case_decide; [done|]. apply IH.
Qed.

Lemma length_aremove k es :
  is_Some (alookup k es) → S (length (aremove k es)) = length es.
Proof.
  induction es as [|[k0 v] es IH]; simpl; [by intros [? ?]|].
  case_decide; simpl; [done|]. intros H'. by rewrite IH.
Qed.

Lemma alookup_app k es1 es2 :
  alookup k (es1 ++ es2)
  = match alookup k es1 with Some v => Some v | None => alookup k es2 end.
Proof.
  induction es1 as [|[k0 v] es1 IH]; simpl; [done|]. by case_decide.
Qed.

Lemma aremove_absent k es : alookup k es = None → aremove k es = es.
Proof.
  induction es as [|[k0 v] es IH]; simpl; [done|].
  case_decide; [done|]. intros H'. by rewrite IH.
Qed.

Lemma aremove_Permutation k v es :
  alookup k es = Some v → es ≡ₚ (k, v) :: aremove k es.
Proof.
  induction es as [|[k0 v0] es IH]; simpl; [done|].
  case_decide.
  - intros [= ->]. by subst.
  - intros H'. rewrite (IH H') at 1. apply perm_swap.
Qed.

(** What [Get] returns is read off [contents]. *)
Lemma Get_yields s k r :
  reachable s → yields (Get k) s r ↔ r = (aGet k (contents s)).1.
Proof.
  intros Hr. destruct (Get_contents s k Hr) as (s' & Hrun & _).
  split.
  - intros [s'' Hrun']. congruence.
  - intros ->. by exists s'.
Qed.

Lemma Get_yields_hit s k v :
  reachable s → yields (Get k) s (v, true) ↔ alookup k (contents s) = Some v.
Proof.
  intros Hr. rewrite (Get_yields _ _ _ Hr). unfold aGet.
  destruct (alookup k (contents s)); simpl; split; intros H; try done; by inversion H.
Qed.

Lemma Get_yields_miss s k :
  reachable s → yields (Get k) s (""%string, false) ↔ alookup k (contents s) = None.
Proof.
  intros Hr. rewrite (Get_yields _ _ _ Hr). unfold aGet.
  destruct (alookup k (contents s)); simpl; split; intros H; try done; by inversion H.
Qed.

(** Two states in which [Get] of [k] returns the same. *)
Lemma Get_yields_same s s' k :
  reachable s → reachable s' →
  alookup k (contents s') = alookup k (contents s) →
  ∀ r, yields (Get k) s' r ↔ yields (Get k) s r.
Proof.
  intros Hr Hr' He r. rewrite (Get_yields s k r Hr), (Get_yields s' k r Hr').
  unfold aGet. by destruct (alookup k (contents s')), (alookup k (contents s)); simplify_eq.
Qed.

Lemma reachable_size s : reachable s → size (store (cache s)) = length (contents s).
Proof.
  intros (ns & HC & _)%reachable_Coh. rewrite (Coh_contents _ _ HC), length_fmap.
  apply HC.
Qed.

Lemma reachable_capacity s :
  reachable s →
  (0 < capacity (cache s))%Z ∧ (Z.of_nat (length (contents s)) ≤ capacity (cache s))%Z.
Proof.
  intros (ns & HC & _)%reachable_Coh. rewrite (Coh_contents _ _ HC), length_fmap.
  split; apply HC.
Qed.

Lemma reachable_store_keys s k :
  reachable s → is_Some (store (cache s) !! k) ↔ k ∈ (contents s).*1.
Proof.
  intros (ns & HC & _)%reachable_Coh. rewrite (Coh_contents _ _ HC). split.
  - intros [a Ha]. apply (coh_store _ _ HC) in Ha as [v Hin].
    apply list_elem_of_fmap. exists (k, v). split; [done|].
    apply list_elem_of_fmap. by exists (a, (k, v)).
  - intros ([k' v] & -> & ([a kv] & Heq & Hin)%list_elem_of_fmap)%list_elem_of_fmap.
    simpl in *. subst kv. exists a. apply (coh_store _ _ HC). eauto.
Qed.

Lemma alookup_is_Some k es : is_Some (alookup k es) ↔ k ∈ es.*1.
Proof.
  split.
  - intros [v Hv]. destruct (decide (k ∈ es.*1)) as [|Hn]; [done|].
    apply alookup_None in Hn. congruence.
  - intros Hin. destruct (alookup k es) eqn:E; [eauto|].
    by apply alookup_None_inv in E.
Qed.

(** The store holds a key exactly when the list does. *)
Lemma store_lookup_contents s k :
  reachable s → is_Some (store (cache s) !! k) ↔ is_Some (alookup k (contents s)).
Proof. intros Hr. by rewrite (reachable_store_keys _ _ Hr), alookup_is_Some. Qed.

Lemma store_None_contents s k :
  reachable s → store (cache s) !! k = None ↔ alookup k (contents s) = None.
Proof.
  intros Hr. rewrite !eq_None_not_Some. by rewrite (store_lookup_contents _ _ Hr).
Qed.

Lemma Len_contents s : reachable s → Len s = Ok (Z.of_nat (length (contents s))) s.
Proof. intros Hr. unfold Len, storeLen. by rewrite (reachable_size _ Hr). Qed.

(** X1 ([Delete], key present): [Delete] returns true and takes exactly this
    key's pair out of the list: the key is gone from the store, every other
    key reads as before, and [Len] is one less. *)
Theorem Delete_removes_exactly_the_key (s : State) (k : string) :
  reachable s → is_Some (store (cache s) !! k) →
  ∃ s', Delete k s = Ok true s'
      ∧ contents s' = aremove k (contents s)
      ∧ store (cache s') !! k = None
      ∧ (∀ k' r, k' ≠ k → yields (Get k') s' r ↔ yields (Get k') s r)
      ∧ (∃ len, Len s = Ok len s ∧ Len s' = Ok (len - 1)%Z s').
Proof.
  intros Hr Hk. apply (store_lookup_contents _ _ Hr) in Hk as Hl.
  destruct Hl as [v Hv].
  destruct (Delete_contents s k Hr) as (s' & Hrun & Hc & Hr').
  unfold aDelete in Hrun, Hc. rewrite Hv in Hrun, Hc. simpl in Hrun, Hc.
  exists s'. split; [done|]. split; [done|]. split; [|split].
  - apply (store_None_contents _ _ Hr'). rewrite Hc.
    apply alookup_aremove_eq, (reachable_keys_NoDup _ Hr).
  - intros k' r Hne. apply Get_yields_same; [done..|].
    rewrite Hc. by apply alookup_aremove_ne.
  - exists (Z.of_nat (length (contents s))). split; [by apply Len_contents|].
    rewrite (Len_contents _ Hr'), Hc. f_equal.
    assert (S (length (aremove k (contents s))) = length (contents s)) as <-
      by (apply length_aremove; eauto).
    lia.
Qed.

Lemma Delete_removes_exactly_the_key_witness :
  ∃ s', Delete "a" demo2 = Ok true s' ∧ contents s' = [("b", "2")]%string.
Proof.
  destruct (Delete_removes_exactly_the_key demo2 "a" demo2_reachable)
    as (s' & Hrun & Hc & _).
  - vm_compute. eauto.
  - exists s'. split; [exact Hrun|]. rewrite Hc. vm_compute. reflexivity.
Defined.

(** X2 (round trip [Set], [Delete], [Get]): whatever the cache held, after
    [Set(k, v)] a [Delete(k)] returns true, and then [Get(k)] finds nothing
    and a second [Delete(k)] returns false. *)
Theorem Set_Delete_Get_round_trip (s : State) (k v : string) :
  reachable s →
  ∃ r s1 s2 s3 s4,
    Set_ k v s = Ok r s1 ∧ Delete k s1 = Ok true s2
    ∧ Get k s2 = Ok (""%string, false) s3 ∧ Delete k s2 = Ok false s4.
Proof.
  intros Hr.
  destruct (Set_contents s k v Hr) as (s1 & Hset & Hc1 & _ & Hr1).
  pose proof (aGet_aSet (capacity (cache s)) k v (contents s)) as Hget.
  rewrite <-Hc1 in Hget. unfold aGet in Hget.
  destruct (alookup k (contents s1)) as [w|] eqn:Hw; [|done].
  destruct (Delete_contents s1 k Hr1) as (s2 & Hdel & Hc2 & Hr2).
  unfold aDelete in Hdel, Hc2. rewrite Hw in Hdel, Hc2. simpl in Hdel, Hc2.
  assert (alookup k (contents s2) = None) as Hn.
  { rewrite Hc2. apply alookup_aremove_eq, (reachable_keys_NoDup _ Hr1). }
  destruct (Get_contents s2 k Hr2) as (s3 & Hget2 & _).
  destruct (Delete_contents s2 k Hr2) as (s4 & Hdel2 & _).
  unfold aGet in Hget2. unfold aDelete in Hdel2. rewrite Hn in Hget2, Hdel2.
  eexists _, s1, s2, s3, s4. repeat split; eassumption.
Qed.

Lemma Set_Delete_Get_round_trip_witness :
  ∃ r s1 s2 s3 s4,
    Set_ "a" "7" demo2 = Ok r s1 ∧ Delete "a" s1 = Ok true s2
    ∧ Get "a" s2 = Ok (""%string, false) s3 ∧ Delete "a" s2 = Ok false s4.
Proof. exact (Set_Delete_Get_round_trip demo2 "a" "7" demo2_reachable). Defined.

Lemma aGet_again k es : aGet k (aGet k es).2 = aGet k es.
Proof.
  unfold aGet at 2 3. destruct (alookup k es) as [v|] eqn:Hv; cbn [fst snd].
  - unfold aGet. simpl. by rewrite !decide_True by done.
  - unfold aGet. by rewrite Hv.
Qed.

(** X3 ([Get] twice): a second [Get] of the same key returns what the first
    returned, and leaves the list as the first left it. *)
Theorem Get_again_same_result (s s1 : State) (k : string) (r : string * bool) :
  reachable s → Get k s = Ok r s1 →
  ∃ s2, Get k s1 = Ok r s2 ∧ contents s2 = contents s1.
Proof.
  intros Hr Hrun.
  destruct (Get_contents s k Hr) as (s1' & Hrun' & Hc1 & Hr1).
  rewrite Hrun in Hrun'. inversion Hrun'; subst s1' r. clear Hrun'.
  destruct (Get_contents s1 k Hr1) as (s2 & Hrun2 & Hc2 & _).
  exists s2. rewrite Hc2, Hc1, aGet_again. split; [|done].
  by rewrite Hc1, aGet_again in Hrun2.
Qed.

Lemma Get_again_same_result_witness :
  ∃ s1 s2, Get "b" demo2 = Ok ("2"%string, true) s1
         ∧ Get "b" s1 = Ok ("2"%string, true) s2 ∧ contents s2 = contents s1.
Proof.
  assert (Get "b" demo2 = Ok ("2"%string, true) (after (Get "b") demo2)) as H
    by (vm_compute; reflexivity).
  destruct (Get_again_same_result _ _ _ _ demo2_reachable H) as (s2 & H2 & Hc).
  exists (after (Get "b") demo2), s2. repeat split; assumption.
Defined.

Lemma snoc_or_nil {A} (l : list A) : l = [] ∨ ∃ front x, l = front ++ [x].
Proof. induction l as [|x l _] using rev_ind; eauto. Qed.

Lemma aGet_lookup k k' es : alookup k' (aGet k es).2 = alookup k' es.
Proof.
  unfold aGet. destruct (alookup k es) as [v|] eqn:Hv; [|done]. simpl.
  case_decide; [by subst|]. by apply alookup_aremove_ne.
Qed.

Lemma aGet_Permutation k es : (aGet k es).2 ≡ₚ es.
Proof.
  unfold aGet. destruct (alookup k es) as [v|] eqn:Hv; [|done]. simpl.
  symmetry. by apply aremove_Permutation.
Qed.

Lemma aGet_aremove k es : aremove k (aGet k es).2 = aremove k es.
Proof.
  unfold aGet. destruct (alookup k es) as [v|] eqn:Hv; [|done]. simpl.
  by rewrite decide_True.
Qed.

(** X4 ([Get] only reorders): a [Get], hit or miss, keeps the pairs of the
    cache and the relative order of the keys other than its own; every key
    reads afterwards as it did before, and [Len] is the same. *)
Theorem Get_only_reorders (s s1 : State) (k : string) (r : string * bool) :
  reachable s → Get k s = Ok r s1 →
  contents s1 ≡ₚ contents s
  ∧ aremove k (contents s1) = aremove k (contents s)
  ∧ (∀ k' r', yields (Get k') s1 r' ↔ yields (Get k') s r')
  ∧ (∃ len, Len s = Ok len s ∧ Len s1 = Ok len s1).
Proof.
  intros Hr Hrun.
  destruct (Get_contents s k Hr) as (s1' & Hrun' & Hc1 & Hr1).
  rewrite Hrun in Hrun'. inversion Hrun'; subst s1' r. clear Hrun'.
  split; [|split; [|split]].
  - rewrite Hc1. apply aGet_Permutation.
  - rewrite Hc1. apply aGet_aremove.
  - intros k' r'. apply Get_yields_same; [done..|]. rewrite Hc1. apply aGet_lookup.
  - exists (Z.of_nat (length (contents s))). split; [by apply Len_contents|].
    rewrite (Len_contents _ Hr1), Hc1. by rewrite aGet_Permutation.
Qed.

Lemma Get_only_reorders_witness :
  ∃ s1, Get "b" demo2 = Ok ("2"%string, true) s1 ∧ contents s1 ≡ₚ contents demo2.
Proof.
  assert (Get "b" demo2 = Ok ("2"%string, true) (after (Get "b") demo2)) as H
    by (vm_compute; reflexivity).
  destruct (Get_only_reorders _ _ _ _ demo2_reachable H) as (Hp & _).
  exists (after (Get "b") demo2). split; assumption.
Defined.

(** X5 ([Set], new key, room left): the pair is added at the tail and nothing
    is evicted: [Set] returns false, every other key reads as before, and
    [Len] is one more. *)
Theorem Set_new_key_with_room (s : State) (k v : string) :
  reachable s → store (cache s) !! k = None →
  (Z.of_nat (size (store (cache s))) < capacity (cache s))%Z →
  ∃ s', Set_ k v s = Ok false s'
      ∧ contents s' = contents s ++ [(k, v)]
      ∧ (∀ k' r, k' ≠ k → yields (Get k') s' r ↔ yields (Get k') s r)
      ∧ (∃ len, Len s = Ok len s ∧ Len s' = Ok (len + 1)%Z s').
Proof.
  intros Hr Hk Hroom. apply (store_None_contents _ _ Hr) in Hk.
  rewrite (reachable_size _ Hr) in Hroom.
  destruct (Set_contents s k v Hr) as (s' & Hrun & Hc & _ & Hr').
  unfold aSet in Hrun, Hc. rewrite Hk in Hrun, Hc.
  rewrite decide_False in Hc by lia. simpl in Hrun, Hc.
  exists s'. split; [done|]. split; [done|]. split.
  - intros k' r Hne. apply Get_yields_same; [done..|].
    rewrite Hc, alookup_app. destruct (alookup k' (contents s)); [done|].
    simpl. by rewrite decide_False.
  - exists (Z.of_nat (length (contents s))). split; [by apply Len_contents|].
    rewrite (Len_contents _ Hr'), Hc, length_app. simpl. f_equal. lia.
Qed.

Lemma Set_new_key_with_room_witness :
  ∃ s', Set_ "b" "2" demo1 = Ok false s'
      ∧ contents s' = [("a", "1"); ("b", "2")]%string.
Proof.
  destruct (Set_new_key_with_room demo1 "b" "2" demo1_reachable)
    as (s' & Hrun & Hc & _).
  - vm_compute. reflexivity.
  - vm_compute. reflexivity.
  - exists s'. split; [exact Hrun|]. rewrite Hc. vm_compute. reflexivity.
Defined.

(** X6 ([Set], new key, cache full): the pair at the tail of the list is
    evicted and the new pair takes the tail: [Set] returns false, the evicted
    key is gone from the store, every key other than these two reads as
    before, and [Len] is the same. *)
Theorem Set_new_key_when_full (s : State) (k v : string) :
  reachable s → store (cache s) !! k = None →
  Z.of_nat (size (store (cache s))) = capacity (cache s) →
  ∃ s' kt vt, last (contents s) = Some (kt, vt)
      ∧ Set_ k v s = Ok false s'
      ∧ contents s' = removelast (contents s) ++ [(k, v)]
      ∧ store (cache s') !! kt = None
      ∧ (∀ k' r, k' ≠ k → k' ≠ kt → yields (Get k') s' r ↔ yields (Get k') s r)
      ∧ (∃ len, Len s = Ok len s ∧ Len s' = Ok len s').
Proof.
  intros Hr Hk Hfull. apply (store_None_contents _ _ Hr) in Hk.
  pose proof (reachable_capacity _ Hr) as [Hpos _].
  pose proof (reachable_keys_NoDup _ Hr) as Hnd.
  rewrite (reachable_size _ Hr) in Hfull.
  destruct (Set_contents s k v Hr) as (s' & Hrun & Hc & _ & Hr').
  unfold aSet in Hrun, Hc. rewrite Hk in Hrun, Hc.
  rewrite decide_True in Hc by done. simpl in Hrun, Hc.
  pose proof (Len_contents _ Hr) as HL. pose proof (Len_contents _ Hr') as HL'.
  destruct (snoc_or_nil (contents s)) as [Hcs|(e0 & [kt vt] & Hcs)];
    rewrite Hcs in *.
  { simpl in Hfull. lia. }
  rewrite removelast_last in Hc.
  rewrite fmap_app in Hnd. apply NoDup_app in Hnd as (_ & Hdis & _).
  assert (kt ∉ e0.*1) as Hkt.
  { intros Hin. apply (Hdis _ Hin). simpl. left. }
  assert (kt ≠ k) as Hne.
  { intros ->. rewrite alookup_app in Hk. destruct (alookup k e0); [done|].
    simpl in Hk. by rewrite decide_True in Hk. }
  exists s', kt, vt. split; [by rewrite last_snoc|]. split; [done|].
  split; [by rewrite removelast_last|]. split; [|split].
  - apply (store_None_contents _ _ Hr'). rewrite Hc, alookup_app.
    rewrite (alookup_None kt e0) by done. simpl. by rewrite decide_False.
  - intros k' r Hk1 Hk2. apply Get_yields_same; [done..|].
    rewrite Hc, Hcs, !alookup_app. destruct (alookup k' e0); [done|].
    simpl. by rewrite !decide_False.
  - eexists. split; [exact HL|]. rewrite HL', Hc, !length_app. done.
Qed.

Lemma Set_new_key_when_full_witness :
  ∃ s', Set_ "c" "3" demo2 = Ok false s'
      ∧ contents s' = [("a", "1"); ("c", "3")]%string
      ∧ store (cache s') !! "b"%string = None.
Proof.
  destruct (Set_new_key_when_full demo2 "c" "3" demo2_reachable)
    as (s' & kt & vt & Hl & Hrun & Hc & Hst & _).
  - vm_compute. reflexivity.
  - vm_compute. reflexivity.
  - exists s'. split; [exact Hrun|]. split; [rewrite Hc; vm_compute; reflexivity|].
    vm_compute in Hl. injection Hl as <- _. exact Hst.
Defined.

(** X7 ([Len] and [Capacity]): on a cache built by [NewCache] and used through
    its public functions, [Len] is the number of pairs in the list, lies
    between 0 and [Capacity], [Capacity] is positive, and [Len] is 0 exactly
    when the head is nil. *)
Theorem Len_within_Capacity (s : State) :
  reachable s →
  ∃ len cap, Len s = Ok len s ∧ Capacity s = Ok cap s
    ∧ (0 ≤ len ≤ cap)%Z ∧ (0 < cap)%Z
    ∧ len = Z.of_nat (length (contents s))
    ∧ (len = 0%Z ↔ head (cache s) = None).
Proof.
  intros Hr. exists (Z.of_nat (length (contents s))), (capacity (cache s)).
  destruct (reachable_capacity _ Hr) as [Hpos Hle].
  split; [by apply Len_contents|]. split; [done|]. split; [lia|].
  split; [done|]. split; [done|].
  destruct (reachable_integrity _ Hr) as (_ & Hhd & _).
  rewrite Hhd, <-(reachable_size _ Hr), <-map_size_empty_iff. lia.
Qed.

Lemma Len_within_Capacity_witness :
  ∃ len cap, Len demo2 = Ok len demo2 ∧ Capacity demo2 = Ok cap demo2
    ∧ (0 ≤ len ≤ cap)%Z.
Proof.
  destruct (Len_within_Capacity demo2 demo2_reachable)
    as (len & cap & HL & HC & Hb & _).
  exists len, cap. repeat split; try assumption; apply Hb.
Defined.

Lemma calls_reachable s0 s :
  calls s0 s → reachable s0 →
  reachable s ∧ capacity (cache s) = capacity (cache s0).
Proof.
  induction 1 as [s|k r s s1 s2 _ IH Hrun|k v r s s1 s2 _ IH Hrun
                  |k r s s1 s2 _ IH Hrun]; intros Hr0; [done|..];
    destruct (IH Hr0) as [Hr1 Hcap]; rewrite <-Hcap;
    destruct (reachable_Coh _ Hr1) as (ns & HC & Hu).
  - destruct (Get_run _ _ k HC Hu) as (s' & ns' & Hrun' & _ & _ & _ & _ & Hc).
    rewrite Hrun in Hrun'. inversion Hrun'; subst. split; [|done].
    by eapply reach_Get.
  - destruct (Set_run _ _ k v HC Hu) as (s' & ns' & Hrun' & _ & _ & _ & _ & Hc).
    rewrite Hrun in Hrun'. inversion Hrun'; subst. split; [|done].
    by eapply reach_Set.
  - destruct (Delete_run _ _ k HC Hu) as (s' & ns' & Hrun' & _ & _ & _ & _ & Hc).
    rewrite Hrun in Hrun'. inversion Hrun'; subst. split; [|done].
    by eapply reach_Delete.
Qed.

(** X8 ([Capacity] is fixed by [NewCache]): after any number of calls of
    [Get], [Set] and [Delete] on the cache that [NewCache(c)] returned,
    [Capacity] still returns [c], and [Len] never exceeds it. *)
Theorem Capacity_is_the_NewCache_argument (c : Z) (s0 s : State) :
  NewCache c = inr s0 → calls s0 s →
  Capacity s = Ok c s
  ∧ ∃ len, Len s = Ok len s ∧ (0 ≤ len ≤ c)%Z.
Proof.
  intros Hnew Hcalls.
  assert (capacity (cache s0) = c) as Hc0.
  { unfold NewCache in Hnew. case_decide; [done|]. by inversion Hnew. }
  destruct (calls_reachable _ _ Hcalls (reach_NewCache _ _ Hnew)) as [Hr Hcap].
  split; [unfold Capacity, getCapacity; by rewrite Hcap, Hc0|].
  exists (Z.of_nat (length (contents s))). split; [by apply Len_contents|].
  destruct (reachable_capacity _ Hr) as [_ Hle]. lia.
Qed.

Lemma Capacity_is_the_NewCache_argument_witness :
  Capacity demo2 = Ok 2%Z demo2.
Proof.
  refine (proj1 (Capacity_is_the_NewCache_argument 2 demo0 demo2 eq_refl _)).
  apply (calls_Set "b" "2" false demo0 demo1 demo2); [|vm_compute; reflexivity].
  apply (calls_Set "a" "1" false demo0 demo0 demo1); [|vm_compute; reflexivity].
  apply calls_none.
Defined.

Lemma Coh_store_node s ns k a :
  Coh s ns → store (cache s) !! k = Some a →
  ∃ n, heap s !! a = Some n ∧ key n = k ∧ a ∈ order s
     ∧ (k, value n) ∈ contents s ∧ alookup k (contents s) = Some (value n).
Proof.
  intros HC Hk. pose proof (proj1 (coh_store _ _ HC k a) Hk) as [v Hin].
  pose proof (ring_data _ _ _ (coh_ring _ _ HC)) as Hd.
  rewrite Forall_forall in Hd. destruct (Hd _ Hin) as [Hkey Hval].
  unfold keyOf, valueOf in Hkey, Hval. simpl in Hkey, Hval.
  destruct (heap s !! a) as [n|] eqn:Hn; [|done]. simpl in Hkey, Hval.
  injection Hkey as Hkey. injection Hval as Hval. subst k v.
  exists n. split; [done|]. split; [done|].
  assert ((key n, value n) ∈ contents s) as Hc.
  { rewrite (Coh_contents _ _ HC). apply list_elem_of_fmap.
    by exists (a, (key n, value n)). }
  split; [|split; [done|]].
  - rewrite (Coh_order _ _ HC). apply list_elem_of_fmap.
    by exists (a, (key n, value n)).
  - apply alookup_NoDup; [|done]. rewrite (Coh_contents _ _ HC).
    by eapply Coh_keys_NoDup.
Qed.

(** X9 (map and list agree): the list holds every key at most once; the store
    holds a key exactly when the list does; and no two keys of the store
    share a node. *)
Theorem store_and_list_hold_the_same_keys (s : State) :
  reachable s →
  NoDup (contents s).*1
  ∧ (∀ k, is_Some (store (cache s) !! k) ↔ k ∈ (contents s).*1)
  ∧ (∀ k1 k2 a, store (cache s) !! k1 = Some a → store (cache s) !! k2 = Some a →
       k1 = k2).
Proof.
  intros Hr. split; [by apply reachable_keys_NoDup|].
  split; [intros k; by apply reachable_store_keys|].
  intros k1 k2 a H1 H2. destruct (reachable_Coh _ Hr) as (ns & HC & _).
  destruct (Coh_store_node _ _ _ _ HC H1) as (n1 & Hn1 & Hk1 & _).
  destruct (Coh_store_node _ _ _ _ HC H2) as (n2 & Hn2 & Hk2 & _).
  congruence.
Qed.

Lemma store_and_list_hold_the_same_keys_witness :
  NoDup (contents demo2).*1
  ∧ (∀ k, is_Some (store (cache demo2) !! k) ↔ k ∈ (contents demo2).*1).
Proof.
  destruct (store_and_list_hold_the_same_keys demo2 demo2_reachable) as (H1 & H2 & _).
  split; assumption.
Defined.

(** X10 (what [Get] returns): when the store maps the key to a node, this
    node is in the list and carries the key, and [Get] returns its value and
    true; when the store has no such key, [Get] returns the empty string and
    false. *)
Theorem Get_returns_the_value_of_the_stored_node (s : State) (k : string) :
  reachable s →
  match store (cache s) !! k with
  | Some a => ∃ n, heap s !! a = Some n ∧ key n = k ∧ a ∈ order s
                 ∧ yields (Get k) s (value n, true)
  | None => yields (Get k) s (""%string, false)
  end.
Proof.
  intros Hr. destruct (store (cache s) !! k) as [a|] eqn:Hk.
  - destruct (reachable_Coh _ Hr) as (ns & HC & _).
    destruct (Coh_store_node _ _ _ _ HC Hk) as (n & Hn & Hkey & Ho & _ & Hl).
    exists n. repeat split; try done. by apply Get_yields_hit.
  - apply Get_yields_miss; [done|]. by apply store_None_contents.
Qed.

Lemma Get_returns_the_value_of_the_stored_node_witness :
  ∃ n, heap demo2 !! 1%nat = Some n ∧ key n = "b"%string
     ∧ yields (Get "b") demo2 (value n, true).
Proof.
  pose proof (Get_returns_the_value_of_the_stored_node demo2 "b" demo2_reachable) as H.
  change (store (cache demo2) !! "b"%string) with (Some 1%nat) in H.
  destruct H as (n & Hn & Hk & _ & Hy). exists n. repeat split; assumption.
Defined.

(** X11 (a key just read is not the next one evicted): with capacity at
    least 2, after a [Get] that found [k], a [Set] of any other key, new or
    not, full cache or not, leaves [k] in the cache with its value. *)
Theorem key_just_read_survives_the_next_Set (s s1 : State) (k v k' v' : string) :
  reachable s → (2 ≤ capacity (cache s))%Z →
  Get k s = Ok (v, true) s1 → k' ≠ k →
  ∃ r s2 s3, Set_ k' v' s1 = Ok r s2 ∧ Get k s2 = Ok (v, true) s3.
Proof.
  intros Hr Hcap Hrun Hne.
  destruct (Get_contents s k Hr) as (s1' & Hrun' & Hc1 & Hr1).
  rewrite Hrun in Hrun'. inversion Hrun' as [[Hres Hs]]. subst s1'. clear Hrun'.
  unfold aGet in Hres, Hc1. destruct (alookup k (contents s)) as [w|] eqn:Hw;
    [|done]. simpl in Hres, Hc1. injection Hres as ->.
  assert (capacity (cache s1) = capacity (cache s)) as Hcap1.
  { apply (calls_reachable s s1); [|done].
    by apply (calls_Get k (w, true) s s s1); [apply calls_none|]. }
  destruct (Set_contents s1 k' v' Hr1) as (s2 & Hset & Hc2 & _ & Hr2).
  destruct (Get_contents s2 k Hr2) as (s3 & Hget & _).
  eexists _, s2, s3. split; [exact Hset|].
  replace (aGet k (contents s2)).1 with (w, true) in Hget; [done|].
  unfold aGet. replace (alookup k (contents s2)) with (Some w); [done|].
  rewrite Hc2, Hc1, Hcap1. unfold aSet. simpl.
  rewrite (decide_False (P := k = k')) by done.
  destruct (alookup k' (aremove k (contents s))) as [u|]; simpl.
  - rewrite (decide_False (P := k = k')) by done. simpl. by rewrite decide_True.
  - case_decide as Hlen; [|simpl; by rewrite decide_True].
    destruct (aremove k (contents s)) as [|e es]; [simpl in Hlen; lia|].
    simpl. by rewrite decide_True.
Qed.

Lemma key_just_read_survives_the_next_Set_witness :
  ∃ s1 r s2 s3, Get "b" demo2 = Ok ("2"%string, true) s1
    ∧ Set_ "c" "3" s1 = Ok r s2 ∧ Get "b" s2 = Ok ("2"%string, true) s3.
Proof.
  assert (Get "b" demo2 = Ok ("2"%string, true) (after (Get "b") demo2)) as H
    by (vm_compute; reflexivity).
  destruct (key_just_read_survives_the_next_Set demo2 _ "b" "2" "c" "3"
              demo2_reachable ltac:(vm_compute; discriminate) H ltac:(discriminate))
    as (r & s2 & s3 & H2 & H3).
  exists (after (Get "b") demo2), r, s2, s3. repeat split; assumption.
Defined.

(** ** The internal functions on a well-formed ring *)

Lemma Ring_walk h hd (ns : list entry) :
  Ring h hd ns → walk h (length ns) hd = ns.*1.
Proof.
  intros [_ Hl _ ->]. rewrite <-(length_fmap fst ns). by apply walk_ring.
Qed.

(** The list of [demo2]: node 0 with ("a", "1") at the head, then node 1 with
    ("b", "2"). *)
Lemma demo2_Ring :
  Ring (heap demo2) (head (cache demo2))
       [(0%nat, ("a", "1")); (1%nat, ("b", "2"))]%string.
Proof.
  split.
  - apply (bool_decide_unpack _). vm_compute. exact I.
  - repeat constructor.
  - repeat constructor.
  - vm_compute. reflexivity.
Qed.

(** X12 ([addToHead]): on a well-formed ring the call allocates a node that
    was not in the heap, fills it with the pair and links it in before the
    old head; the new node is the head, the list read from it is the new
    node followed by the old list, and mutex, capacity and store are
    untouched. *)
Theorem addToHead_links_a_new_head (s : State) (ns : list entry) (k v : string) :
  Ring (heap s) (head (cache s)) ns →
  ∃ a s', addToHead k v s = Ok a s'
    ∧ heap s !! a = None
    ∧ head (cache s') = Some a
    ∧ Ring (heap s') (head (cache s')) ((a, (k, v)) :: ns)
    ∧ walk (heap s') (S (length ns)) (head (cache s')) = a :: ns.*1
    ∧ sameFields (cache s) (cache s').
Proof.
  intros HR. destruct (addToHead_ring s ns k v HR) as (a & s' & Hrun & HR' & Hf & Hs & _).
  exists a, s'. split; [done|]. split; [done|].
  split; [by rewrite (ring_head _ _ _ HR')|]. split; [done|]. split; [|done].
  apply (Ring_walk _ _ _ HR').
Qed.

Lemma addToHead_links_a_new_head_witness :
  ∃ a s', addToHead "c" "3" demo2 = Ok a s'
    ∧ walk (heap s') 3 (head (cache s')) = [a; 0%nat; 1%nat].
Proof.
  destruct (addToHead_links_a_new_head demo2 _ "c" "3" demo2_Ring)
    as (a & s' & Hrun & _ & _ & _ & Hw & _).
  exists a, s'. split; assumption.
Defined.

(** X13 ([addToTail]): on a well-formed ring the call links a new node in
    behind the last one: the head stays where it was (the new node is the
    head only when the list was empty), and the list read from the head is
    the old list followed by the new node. *)
Theorem addToTail_links_a_new_tail (s : State) (ns : list entry) (k v : string) :
  Ring (heap s) (head (cache s)) ns →
  ∃ a s', addToTail k v s = Ok a s'
    ∧ heap s !! a = None
    ∧ head (cache s') = (if decide (ns = []) then Some a else head (cache s))
    ∧ Ring (heap s') (head (cache s')) (ns ++ [(a, (k, v))])
    ∧ walk (heap s') (S (length ns)) (head (cache s')) = ns.*1 ++ [a]
    ∧ sameFields (cache s) (cache s').
Proof.
  intros HR. destruct (addToTail_ring s ns k v HR) as (a & s' & Hrun & HR' & Hf & Hs & _).
  exists a, s'. split; [done|]. split; [done|]. split; [|split; [done|split; [|done]]].
  - rewrite (ring_head _ _ _ HR'), (ring_head _ _ _ HR).
    destruct ns; [by rewrite decide_True|by rewrite decide_False].
  - pose proof (Ring_walk _ _ _ HR') as Hw.
    rewrite length_app, fmap_app in Hw. simpl in Hw.
    by rewrite Nat.add_1_r in Hw.
Qed.

Lemma addToTail_links_a_new_tail_witness :
  ∃ a s', addToTail "c" "3" demo2 = Ok a s'
    ∧ head (cache s') = Some 0%nat
    ∧ walk (heap s') 3 (head (cache s')) = [0%nat; 1%nat; a].
Proof.
  destruct (addToTail_links_a_new_tail demo2 _ "c" "3" demo2_Ring)
    as (a & s' & Hrun & _ & Hh & _ & Hw & _).
  exists a, s'. repeat split; assumption.
Defined.

(** X14 ([removeFromList]): unlinking a node of a well-formed ring leaves the
    ring of the other nodes in their order; the head is nil when the node was
    the only one, the node after it when it was the head, and unchanged
    otherwise; no node's key or value changes, the removed node's
    included. *)
Theorem removeFromList_unlinks_the_node (s : State) (ns1 ns2 : list entry)
    (a : loc) (kv : string * string) :
  Ring (heap s) (head (cache s)) (ns1 ++ (a, kv) :: ns2) →
  ∃ s', removeFromList (Some a) s = Ok tt s'
    ∧ Ring (heap s') (head (cache s')) (ns1 ++ ns2)
    ∧ head (cache s') = (if decide (ns1 = []) then ns2.*1 !! 0%nat else head (cache s))
    ∧ walk (heap s') (length (ns1 ++ ns2)) (head (cache s')) = (ns1 ++ ns2).*1
    ∧ sameFields (cache s) (cache s')
    ∧ (∀ x, keyOf (heap s') x = keyOf (heap s) x)
    ∧ (∀ x, valueOf (heap s') x = valueOf (heap s) x).
Proof.
  intros HR. destruct (removeFromList_ring s ns1 a kv ns2 HR) as (s' & Hrun & HR' & Hs & Hk & Hv).
  exists s'. split; [done|]. split; [done|]. split; [|split; [|done]].
  - rewrite (ring_head _ _ _ HR'), (ring_head _ _ _ HR).
    destruct ns1; [by rewrite decide_True|by rewrite decide_False].
  - apply (Ring_walk _ _ _ HR').
Qed.

Lemma removeFromList_unlinks_the_node_witness :
  ∃ s', removeFromList (Some 0%nat) demo2 = Ok tt s'
    ∧ head (cache s') = Some 1%nat
    ∧ walk (heap s') 1 (head (cache s')) = [1%nat].
Proof.
  destruct (removeFromList_unlinks_the_node demo2 [] [(1%nat, ("b", "2"))]%string
              0%nat ("a", "1")%string demo2_Ring)
    as (s' & Hrun & _ & Hh & Hw & _).
  exists s'. repeat split; assumption.
Defined.

(** ** [verifyIntegrity] accepts exactly the states of the invariant *)

Lemma elem_of_entries h l a k v :
  (a, (k, v)) ∈ entries h l ↔ a ∈ l ∧ keyOf h a = Some k ∧ valueOf h a = Some v.
Proof.
  unfold entries. rewrite list_elem_of_omap. unfold entryOf, keyOf, valueOf. split.
  - intros (x & Hx & Hm). destruct (h !! x) as [n|] eqn:Hn; simplify_eq/=.
    by rewrite Hn.
  - intros (Hin & Hk & Hv). exists a. split; [done|].
    destruct (h !! a) as [n|]; by simplify_eq/=.
Qed.

Lemma entries_fst h l : Forall (λ a, is_Some (h !! a)) l → (entries h l).*1 = l.
Proof.
  induction 1 as [|a l [n Hn] _ IH]; [done|].
  unfold entries, entryOf in *. simpl. rewrite Hn. simpl. by f_equal.
Qed.

Lemma entries_holds h l : Forall (holds h) (entries h l).
Proof.
  apply Forall_forall. intros [a [k v]] Hin.
  apply elem_of_entries in Hin as (_ & Hk & Hv). by split.
Qed.

(** A duplicate-free list inside a list that is no longer holds all of it. *)
Lemma pigeonhole {A} (l k : list A) :
  NoDup l → l ⊆ k → length k ≤ length l → k ⊆ l.
Proof.
  intros Hnd Hsub Hlen x Hx.
  pose proof (NoDup_submseteq l k Hnd Hsub) as Hm.
  by rewrite (submseteq_length_Permutation _ _ Hm Hlen).
Qed.

Lemma elem_of_path l e : e ∈ path l → e.1 ∈ l ∧ e.2 ∈ l.
Proof.
  induction l as [|x [|y l] IH]; simpl; [by intros ?%elem_of_nil..|].
  intros [->|Hin]%elem_of_cons; simpl.
  - split; [left|right; left].
  - destruct (IH Hin). split; by right.
Qed.

Lemma path_elem l1 x y l2 : (x, y) ∈ path (l1 ++ x :: y :: l2).
Proof.
  rewrite (path_app l1 x (y :: l2)). apply elem_of_app. right. simpl. left.
Qed.

(** When map and list have as many entries and every key of the store maps
    to a node of the list that carries this key, every node of the list is
    the store's node for its key. *)
Lemma store_onto s l :
  NoDup l → length l = size (store (cache s)) →
  (∀ k a, store (cache s) !! k = Some a → keyOf (heap s) a = Some k ∧ a ∈ l) →
  ∀ a, a ∈ l → ∃ k, keyOf (heap s) a = Some k ∧ store (cache s) !! k = Some a.
Proof.
  intros Hnd Hlen Hst a Ha.
  assert (NoDup (map_to_list (store (cache s))).*2) as Hvals.
  { apply NoDup_fmap_2_strong; [|apply NoDup_map_to_list].
    intros [k1 a1] [k2 a2] H1%elem_of_map_to_list H2%elem_of_map_to_list Heq.
    simpl in Heq. subst a2. apply Hst in H1 as [H1 _]. apply Hst in H2 as [H2 _].
    congruence. }
  assert (a ∈ (map_to_list (store (cache s))).*2) as Hin.
  { apply (pigeonhole _ l Hvals); [| |done].
    - intros x ([k' x'] & -> & Hx%elem_of_map_to_list)%list_elem_of_fmap.
      by apply Hst in Hx as [_ ?].
    - by rewrite length_fmap, length_map_to_list, Hlen. }
  apply list_elem_of_fmap in Hin as ([k a'] & -> & Hk%elem_of_map_to_list).
  exists k. split; [|done]. by apply Hst in Hk as [? _].
Qed.

(** A ring of as many nodes as the store has keys, each of them the store's
    node for the key it carries, is a coherent cache. *)
Lemma Coh_build s l :
  l ≠ [] → NoDup l → length l = size (store (cache s)) →
  head (cache s) = l !! 0%nat →
  Forall (linked (heap s)) (cyc l) →
  (Z.of_nat (size (store (cache s))) ≤ capacity (cache s))%Z →
  (∀ a, a ∈ l → ∃ k, keyOf (heap s) a = Some k ∧ store (cache s) !! k = Some a) →
  Coh s (entries (heap s) l).
Proof.
  intros Hne Hnd Hlen Hhd Hl Hcap Hnodes.
  assert ((entries (heap s) l).*1 = l) as Hfst.
  { apply entries_fst, Forall_forall. intros a Ha.
    destruct (Hnodes a Ha) as (k & Hk & _). by eapply keyOf_defined. }
  assert (length (entries (heap s) l) = length l) as Hlen'.
  { by rewrite <-(length_fmap fst), Hfst. }
  assert (∀ a k v, (a, (k, v)) ∈ entries (heap s) l → store (cache s) !! k = Some a)
    as Hback.
  { intros a k v (Ha & Hk & _)%elem_of_entries.
    destruct (Hnodes a Ha) as (k' & Hk' & Hs). congruence. }
  split.
  - split; rewrite ?Hfst; try done. apply entries_holds.
  - intros k a. split; [|intros [v Hin]; by eapply Hback].
    intros Hk.
    set (ks := (λ e : entry, e.2.1) <$> entries (heap s) l).
    assert (NoDup ks) as Hks.
    { apply NoDup_fmap_2_strong.
      - intros [a1 [k1 v1]] [a2 [k2 v2]] H1 H2 Heq. simpl in Heq. subst k2.
        pose proof (Hback _ _ _ H1). pose proof (Hback _ _ _ H2).
        assert (a1 = a2) by congruence. subst a2.
        f_equal. eapply entry_unique; [|exact H1|exact H2]. by rewrite Hfst.
      - apply (NoDup_fmap_1 fst). by rewrite Hfst. }
    assert (k ∈ ks) as Hin.
    { apply (pigeonhole _ (map_to_list (store (cache s))).*1 Hks).
      - intros x ([a1 [k1 v1]] & -> & Hx)%list_elem_of_fmap. simpl.
        apply list_elem_of_fmap. exists (k1, a1). split; [done|].
        apply elem_of_map_to_list. by eapply Hback.
      - unfold ks. rewrite !length_fmap, length_map_to_list. lia.
      - apply list_elem_of_fmap. exists (k, a). split; [done|].
        by apply elem_of_map_to_list. }
    apply list_elem_of_fmap in Hin as ([a1 [k1 v1]] & Heq & Hin). simpl in Heq.
    subst k1. pose proof (Hback _ _ _ Hin). exists v1.
    by replace a with a1 by congruence.
  - lia.
  - lia.
  - destruct l; [done|]. simpl in Hlen. lia.
Qed.

(** What a run of the loop that reaches its [break] has checked. *)
Lemma verifyLoop_inr fuel s pre cur V :
  verifyLoop fuel s (list_to_set pre) (length pre) cur = inr V →
  NoDup pre →
  ∃ suf c, (suf ++ [c]) !! 0%nat = cur
    ∧ V = list_to_set (pre ++ suf)
    ∧ NoDup (pre ++ suf)
    ∧ length (pre ++ suf) = size (store (cache s))
    ∧ c ∈ pre ++ suf
    ∧ Forall (linked (heap s)) (path (suf ++ [c]))
    ∧ ∀ a, a ∈ suf → ∃ k, keyOf (heap s) a = Some k ∧ store (cache s) !! k = Some a.
Proof.
  revert pre cur. induction fuel as [|fuel IH]; intros pre cur Hrun Hnd; [done|].
  cbn [verifyLoop] in Hrun. destruct cur as [a|]; [|done].
  case_decide as Hvis.
  - case_decide as Hcnt; [|done]. injection Hrun as <-.
    exists [], a. rewrite app_nil_r. apply elem_of_list_to_set in Hvis.
    repeat split; try done. intros x Hx. by apply elem_of_nil in Hx.
  - destruct (nextOf (heap s) a) as [nx|] eqn:Hnx; [|done].
    destruct (prevOf (heap s) a) as [pv|] eqn:Hpv; [|done].
    case_decide as Hnp; [|done]. case_decide as Hpn; [|done].
    destruct (keyOf (heap s) a) as [k|] eqn:Hk; [|done].
    destruct (store (cache s) !! k) as [sn|] eqn:Hs; [|done].
    case_decide as Hsn; [|done]. subst sn. case_decide as Hmore; [done|].
    replace ({[a]} ∪ list_to_set pre : gset nat)
      with (list_to_set (pre ++ [a]) : gset nat) in Hrun
      by (rewrite list_to_set_app_L; set_solver).
    replace (S (length pre)) with (length (pre ++ [a])) in Hrun
      by (rewrite length_app; simpl; lia).
    rewrite elem_of_list_to_set in Hvis.
    destruct (IH _ _ Hrun) as (suf & c & Hfst & HV & Hnd' & Hlen & Hc & Hl & Hnodes).
    { apply NoDup_app. split; [done|]. split; [|apply NoDup_singleton].
      intros x Hx ->%list_elem_of_singleton. done. }
    rewrite <-app_assoc in HV, Hnd', Hlen, Hc. simpl in HV, Hnd', Hlen, Hc.
    exists (a :: suf), c. split; [done|]. split; [done|]. split; [done|].
    split; [done|]. split; [done|]. split.
    + change ((a :: suf) ++ [c]) with (a :: (suf ++ [c])).
      destruct (suf ++ [c]) as [|y r] eqn:Ey; [by destruct suf|].
      simpl in Hfst. injection Hfst as ->. rewrite path_cons.
      apply Forall_cons. split; [done|]. done.
    + intros x [->|Hx]%elem_of_cons; [eauto|by apply Hnodes].
Qed.

(** The node the loop stops at is the head. *)
Lemma closes_at_head h l c c0 :
  NoDup l → l !! 0%nat = Some c0 → c ∈ l →
  Forall (linked h) (path (l ++ [c])) → c = c0.
Proof.
  intros Hnd Hhd Hc Hl. destruct (decide (c = c0)) as [|Hne]; [done|exfalso].
  apply list_elem_of_split in Hc as (l1 & l2 & ->).
  destruct (snoc_or_nil l1) as [->|(p1 & x & ->)]; [by simplify_eq/=|].
  destruct (snoc_or_nil (c :: l2)) as [?|(p2 & y & Hy)]; [done|].
  rewrite Forall_forall in Hl.
  assert (prevOf h c = Some x) as Hx.
  { apply (Hl (x, c)). rewrite <-!app_assoc. simpl. apply path_elem. }
  assert (prevOf h c = Some y) as Hy'.
  { apply (Hl (y, c)). rewrite Hy.
    replace (((p1 ++ [x]) ++ p2 ++ [y]) ++ [c])
      with (((p1 ++ [x]) ++ p2) ++ y :: c :: []) by (by rewrite <-!app_assoc).
    apply path_elem. }
  assert (x = y) by congruence. subst y.
  rewrite <-app_assoc, Hy in Hnd. simpl in Hnd.
  apply NoDup_app in Hnd as (_ & _ & Hnd). apply NoDup_cons in Hnd as [Hnd _].
  apply Hnd. apply elem_of_app. right. left.
Qed.

Lemma verifyIntegrity_Coh s :
  verifyIntegrity s = None → store (cache s) ≠ ∅ → ∃ ns, Coh s ns.
Proof.
  unfold verifyIntegrity. cbv zeta. intros Hv Hne.
  rewrite decide_False in Hv by (by rewrite map_size_empty_iff).
  case_decide as Hcap; [done|].
  destruct (verifyLoop _ s ∅ 0 (head (cache s))) as [e|V] eqn:Hrun; [done|].
  change (∅ : gset nat) with (list_to_set [] : gset nat) in Hrun.
  change 0%nat with (length (@nil nat)) in Hrun.
  destruct (verifyLoop_inr _ _ _ _ _ Hrun (NoDup_nil_2 (A:=nat)))
    as (l & c & Hfst & _ & Hnd & Hlen & Hc & Hl & Hnodes).
  simpl in Hnd, Hlen, Hc.
  destruct l as [|c0 r]; [by apply elem_of_nil in Hc|].
  simpl in Hfst.
  assert (c = c0) as -> by (by eapply (closes_at_head _ (c0 :: r))).
  exists (entries (heap s) (c0 :: r)). apply Coh_build; try done. lia.
Qed.

Lemma walk_full h n p :
  length (walk h n p) = n →
  (0 < n → walk h n p !! 0%nat = p)
  ∧ Forall (λ e, nextOf h e.1 = Some e.2) (path (walk h n p)).
Proof.
  revert p. induction n as [|n IH]; intros p Hlen.
  - split; [lia|]. simpl. constructor.
  - destruct p as [a|]; [|done]. simpl in Hlen. injection Hlen as Hlen.
    destruct (IH _ Hlen) as [Hhd Hp]. split; [done|].
    cbn [walk]. destruct n as [|n]; [constructor|].
    specialize (Hhd ltac:(lia)).
    destruct (walk h (S n) (nextOf h a)) as [|b r] eqn:Hw; [done|].
    simpl in Hhd. rewrite path_cons. apply Forall_cons. split; [|done].
    by simpl.
Qed.

Lemma integrity_Coh s : integrity s → store (cache s) ≠ ∅ → ∃ ns, Coh s ns.
Proof.
  intros (Hcap & Hhd & Hlen & Hnd & Hlast & Hlinks & Hst) Hne.
  assert (0 < size (store (cache s))) as Hpos.
  { destruct (size (store (cache s))) eqn:E; [|lia].
    by apply map_size_empty_iff in E. }
  unfold order in *.
  destruct (walk_full _ _ _ Hlen) as [Hfst Hp]. specialize (Hfst Hpos).
  set (l := walk (heap s) (size (store (cache s))) (head (cache s))) in *.
  destruct l as [|c0 r] eqn:El; [simpl in Hlen; lia|].
  assert (is_Some (last (c0 :: r))) as [t Ht] by (by apply last_is_Some).
  exists (entries (heap s) (c0 :: r)). apply Coh_build; try done.
  - rewrite (cyc_ends (c0 :: r) c0 t) by done. apply Forall_app. split.
    + apply Forall_forall. intros [a b] Hin. rewrite Forall_forall in Hp.
      pose proof (Hp _ Hin) as Hn. simpl in Hn.
      destruct (elem_of_path _ _ Hin) as [Ha _]. simpl in Ha.
      destruct (Hlinks a Ha) as (nx & pv & Hn' & Hpn & _). split; simpl; [done|].
      congruence.
    + apply Forall_singleton.
      assert (t ∈ c0 :: r) as Hin by (by apply last_Some_elem_of).
      destruct (Hlinks t Hin) as (nx & pv & Hn' & Hpn & _).
      pose proof (Hlast t Ht) as Hn. simpl in Hfst. split; simpl; congruence.
  - by apply store_onto.
Qed.

Lemma integrity_empty s :
  store (cache s) = ∅ → head (cache s) = None → (0 ≤ capacity (cache s))%Z →
  integrity s.
Proof.
  intros Hs Hh Hc. unfold integrity, order. cbv zeta. rewrite Hs, Hh, map_size_empty.
  simpl. repeat split; try done.
  - constructor.
  - intros n Hn. by apply elem_of_nil in Hn.
Qed.

(** X15 ([verifyIntegrity] against the invariant): on any cache struct and
    heap whatever, with a capacity that is not negative, [verifyIntegrity]
    returns nil exactly when the integrity invariant holds. *)
Theorem verifyIntegrity_nil_iff_integrity (s : State) :
  (0 ≤ capacity (cache s))%Z →
  verifyIntegrity s = None ↔ integrity s.
Proof.
  intros Hc. destruct (decide (store (cache s) = ∅)) as [He|Hne].
  - split.
    + intros Hv. apply integrity_empty; [done| |done].
      unfold verifyIntegrity in Hv. cbv zeta in Hv.
      rewrite decide_True in Hv by (by rewrite He, map_size_empty).
      by destruct (head (cache s)).
    + intros (_ & Hhd & _). unfold verifyIntegrity. cbv zeta.
      rewrite decide_True by (by rewrite He, map_size_empty).
      by rewrite (proj2 Hhd He).
  - split.
    + intros Hv. destruct (verifyIntegrity_Coh _ Hv Hne) as [ns HC].
      by eapply Coh_integrity.
    + intros Hi. destruct (integrity_Coh _ Hi Hne) as [ns HC].
      by eapply Coh_verifyIntegrity.
Qed.

Lemma verifyIntegrity_nil_iff_integrity_witness :
  verifyIntegrity demo2 = None ↔ integrity demo2.
Proof.
  apply (verifyIntegrity_nil_iff_integrity demo2). vm_compute. discriminate.
Defined.

(** ** The earlier revision: [Get] loses the value, [Delete] returns it *)

Lemma GetV_locked_sim s ns k :
  Coh s ns →
  ∃ s' ns', CacheNodeVariant.Get_locked k s = Ok (aGetV k ns.*2).1 s'
     ∧ Coh s' ns' ∧ ns'.*2 = (aGetV k ns.*2).2
     ∧ mutex (cache s') = mutex (cache s)
     ∧ capacity (cache s') = capacity (cache s).
Proof.
  intros HC. unfold CacheNodeVariant.Get_locked. cbv zeta.
  assert (Hlk : storeLookup k s = Ok (store (cache s) !! k) s) by done.
  step Hlk.
  destruct (store (cache s) !! k) as [a|] eqn:Hk.
  - destruct (Coh_store_split _ _ _ _ HC Hk) as (ns1 & v & ns2 & ->).
    pose proof (Coh_key_not_before _ _ _ _ _ _ HC) as Hnb.
    destruct HC as [HR Hst Hsz Hcap Hpos].
    pose proof HR as [Hnd _ Hd _].
    assert (Ha : holds (heap s) (a, (k, v))).
    { rewrite Forall_forall in Hd. apply Hd. apply elem_of_app. right. left. }
    destruct Ha as [Hak Hav]. simpl in Hak, Hav.
    destruct (removeFromList_ring _ _ _ _ _ HR) as (s1 & Hrm & HR1 & Hsame1 & Hk1 & Hv1).
    step Hrm.
    destruct (addToHead_ring s1 _ k ""%string HR1) as
      (a' & s2 & Hadd & HR2 & Hfresh & Hsame2 & Hk2 & Hv2).
    step Hadd.
    assert (a ≠ a').
    { intros ->. destruct (keyOf_defined (heap s1) a' k) as [? ?]; [|congruence].
      by rewrite Hk1. }
    erewrite (bind_ok (storeInsert k a')) by reflexivity. cbv beta.
    erewrite (bind_ok (getValue (Some a)));
      [|apply getValue_ok; simpl; by rewrite Hv2, decide_False, Hv1].
    unfold ret.
    rewrite fmap_app, fmap_cons. unfold aGetV. simpl.
    rewrite alookup_middle, aremove_middle by done. simpl.
    eexists _, ((a', (k, ""%string)) :: ns1 ++ ns2). split; [reflexivity|].
    destruct Hsame1 as (Hm1 & Hc1 & Hs1). destruct Hsame2 as (Hm2 & Hc2 & Hs2).
    split; [|repeat split; simpl; try congruence; by rewrite fmap_app].
    split; simpl.
    + done.
    + rewrite Hs2, Hs1. intros k' b. destruct (decide (k' = k)) as [->|Hne].
      * rewrite lookup_insert_eq. split.
        -- intros [= <-]. exists ""%string. left.
        -- intros [v' [Heq|Hin]%elem_of_cons]; [by simplify_eq|]. exfalso.
           assert (store (cache s) !! k = Some b) as Hb.
           { apply Hst. exists v'. set_solver. }
           assert (b = a) by congruence. subst b.
           by apply (split_not_in _ _ _ _ (k, v') Hnd).
      * rewrite lookup_insert_ne by done. rewrite Hst.
        split; intros [v' Hin]; exists v'; set_solver.
    + rewrite Hs2, Hs1. rewrite map_size_insert_Some by eauto.
      rewrite Hsz, !length_app. simpl. lia.
    + rewrite Hc2, Hc1. rewrite !length_app in *. simpl in *. lia.
    + by rewrite Hc2, Hc1.
  - pose proof (Coh_key_absent _ _ _ HC Hk) as Hnk.
    unfold aGetV. rewrite (alookup_None _ _ Hnk). simpl.
    exists s, ns. done.
Qed.

Lemma DeleteV_locked_sim s ns k :
  Coh s ns →
  ∃ s' ns', CacheNodeVariant.Delete_locked k s = Ok (aDeleteV k ns.*2).1 s'
     ∧ Coh s' ns' ∧ ns'.*2 = (aDeleteV k ns.*2).2
     ∧ mutex (cache s') = mutex (cache s)
     ∧ capacity (cache s') = capacity (cache s).
Proof.
  intros HC. unfold CacheNodeVariant.Delete_locked.
  assert (Hlk : storeLookup k s = Ok (store (cache s) !! k) s) by done.
  step Hlk.
  destruct (store (cache s) !! k) as [a|] eqn:Hk.
  - destruct (Coh_store_split _ _ _ _ HC Hk) as (ns1 & v & ns2 & ->).
    pose proof (Coh_key_not_before _ _ _ _ _ _ HC) as Hnb.
    destruct (drop_entry _ _ _ _ _ _ HC) as (s1 & Hrm & Hgk & HC1 & Hm1 & Hc1 & Hs1).
    assert (valueOf (heap s1) a = Some v) as Hval.
    { destruct HC as [HR _ _ _ _]. pose proof HR as [_ _ Hd _].
      destruct (removeFromList_ring _ _ _ _ _ HR) as (s1' & Hrm' & _ & _ & _ & Hv1).
      rewrite Hrm in Hrm'. injection Hrm' as <-. rewrite Hv1.
      rewrite Forall_forall in Hd.
      apply (Hd (a, (k, v))). apply elem_of_app. right. left. }
    step Hrm. step Hgk.
    erewrite (bind_ok (storeDelete k)) by reflexivity. cbv beta.
    erewrite (bind_ok (getValue (Some a))) by (by apply getValue_ok).
    unfold ret.
    rewrite fmap_app, fmap_cons. unfold aDeleteV. simpl.
    rewrite alookup_middle, aremove_middle by done. simpl.
    eexists _, (ns1 ++ ns2). split; [reflexivity|].
    split; [exact HC1|]. by rewrite fmap_app.
  - pose proof (Coh_key_absent _ _ _ HC Hk) as Hnk.
    unfold aDeleteV. rewrite (alookup_None _ _ Hnk). simpl.
    exists s, ns. done.
Qed.

Lemma GetV_run s ns k :
  Coh s ns → locked (mutex (cache s)) = false →
  ∃ s' ns', CacheNodeVariant.Get k s = Ok (aGetV k ns.*2).1 s' ∧ Coh s' ns'
          ∧ ns'.*2 = (aGetV k ns.*2).2 ∧ ranOnce s s'.
Proof.
  intros HC Hu. unfold CacheNodeVariant.Get.
  apply (locked_sim _ _ _ _ (λ ns', ns'.*2 = (aGetV k ns.*2).2) HC Hu).
  intros s0 HC0 _. by apply GetV_locked_sim.
Qed.

Lemma DeleteV_run s ns k :
  Coh s ns → locked (mutex (cache s)) = false →
  ∃ s' ns', CacheNodeVariant.Delete k s = Ok (aDeleteV k ns.*2).1 s' ∧ Coh s' ns'
          ∧ ns'.*2 = (aDeleteV k ns.*2).2 ∧ ranOnce s s'.
Proof.
  intros HC Hu. unfold CacheNodeVariant.Delete.
  apply (locked_sim _ _ _ _ (λ ns', ns'.*2 = (aDeleteV k ns.*2).2) HC Hu).
  intros s0 HC0 _. by apply DeleteV_locked_sim.
Qed.

Lemma reachableV_Coh s :
  reachableV s → ∃ ns, Coh s ns ∧ locked (mutex (cache s)) = false.
Proof.
  induction 1 as [c s Hs|k r s s' _ (ns & HC & Hu) Hrun
                 |k v r s s' _ (ns & HC & Hu) Hrun|k r s s' _ (ns & HC & Hu) Hrun].
  - exists []. by eapply NewCache_Coh.
  - destruct (GetV_run _ _ k HC Hu) as (s1 & ns1 & Hrun1 & HC1 & _ & Hu1 & _).
    rewrite Hrun in Hrun1. simplify_eq. eauto.
  - destruct (Set_run _ _ k v HC Hu) as (s1 & ns1 & Hrun1 & HC1 & _ & Hu1 & _).
    rewrite Hrun in Hrun1. simplify_eq. eauto.
  - destruct (DeleteV_run _ _ k HC Hu) as (s1 & ns1 & Hrun1 & HC1 & _ & Hu1 & _).
    rewrite Hrun in Hrun1. simplify_eq. eauto.
Qed.

Lemma GetV_contents s k :
  reachableV s →
  ∃ s', CacheNodeVariant.Get k s = Ok (aGetV k (contents s)).1 s'
      ∧ contents s' = (aGetV k (contents s)).2 ∧ reachableV s'.
Proof.
  intros Hr. destruct (reachableV_Coh _ Hr) as (ns & HC & Hu).
  destruct (GetV_run _ _ k HC Hu) as (s' & ns' & Hrun & HC' & Hns & _).
  exists s'. rewrite (Coh_contents _ _ HC), (Coh_contents _ _ HC').
  repeat split; try done. by eapply reachV_Get.
Qed.

Lemma DeleteV_contents s k :
  reachableV s →
  ∃ s', CacheNodeVariant.Delete k s = Ok (aDeleteV k (contents s)).1 s'
      ∧ contents s' = (aDeleteV k (contents s)).2 ∧ reachableV s'.
Proof.
  intros Hr. destruct (reachableV_Coh _ Hr) as (ns & HC & Hu).
  destruct (DeleteV_run _ _ k HC Hu) as (s' & ns' & Hrun & HC' & Hns & _).
  exists s'. rewrite (Coh_contents _ _ HC), (Coh_contents _ _ HC').
  repeat split; try done. by eapply reachV_Delete.
Qed.

Lemma demo2_reachableV : reachableV demo2.
Proof.
  apply (reachV_Set "b" "2" false demo1 demo2); [|vm_compute; reflexivity].
  apply (reachV_Set "a" "1" false demo0 demo1); [|vm_compute; reflexivity].
  by apply (reachV_NewCache 2).
Qed.

(** X16 (earlier revision, [Get] loses the value): a [Get] that finds the key
    returns its value and true, but the node it puts at the head carries the
    empty string; so a second [Get] of the key returns the empty string and
    true, whatever the value was. *)
Theorem CacheNodeVariant_Get_blanks_the_value (s : State) (k v : string) :
  reachableV s → alookup k (contents s) = Some v →
  ∃ s1 s2,
    CacheNodeVariant.Get k s = Ok (v, true) s1
    ∧ contents s1 = (k, ""%string) :: aremove k (contents s)
    ∧ CacheNodeVariant.Get k s1 = Ok (""%string, true) s2
    ∧ contents s2 = contents s1.
Proof.
  intros Hr Hk.
  destruct (GetV_contents s k Hr) as (s1 & Hrun1 & Hc1 & Hr1).
  unfold aGetV in Hrun1, Hc1. rewrite Hk in Hrun1, Hc1. simpl in Hrun1, Hc1.
  destruct (GetV_contents s1 k Hr1) as (s2 & Hrun2 & Hc2 & _).
  unfold aGetV in Hrun2, Hc2. rewrite Hc1 in Hrun2, Hc2. simpl in Hrun2, Hc2.
  rewrite decide_True in Hrun2, Hc2 by done. simpl in Hrun2, Hc2.
  rewrite decide_True in Hc2 by done.
  exists s1, s2. by rewrite Hc1.
Qed.

Lemma CacheNodeVariant_Get_blanks_the_value_witness :
  ∃ s1 s2,
    CacheNodeVariant.Get "a" demo2 = Ok ("1"%string, true) s1
    ∧ CacheNodeVariant.Get "a" s1 = Ok (""%string, true) s2.
Proof.
  destruct (CacheNodeVariant_Get_blanks_the_value demo2 "a" "1" demo2_reachableV)
    as (s1 & s2 & H1 & _ & H2 & _).
  - vm_compute. reflexivity.
  - exists s1, s2. split; assumption.
Defined.

(** X17 (earlier revision, [Delete]): [Delete] of a key that is present
    returns its value and true and takes the pair out of the list; of a key
    that is absent it returns the empty string and false and leaves the list
    as it is. *)
Theorem CacheNodeVariant_Delete_returns_the_value (s : State) (k : string) :
  reachableV s →
  ∃ s', CacheNodeVariant.Delete k s
        = Ok (match alookup k (contents s) with
              | Some v => (v, true)
              | None => (""%string, false)
              end) s'
      ∧ contents s' = aremove k (contents s)
      ∧ alookup k (contents s') = None.
Proof.
  intros Hr. destruct (DeleteV_contents s k Hr) as (s' & Hrun & Hc & Hr').
  assert (NoDup (contents s).*1) as Hnd.
  { destruct (reachableV_Coh _ Hr) as (ns & HC & _).
    rewrite (Coh_contents _ _ HC). by eapply Coh_keys_NoDup. }
  exists s'. unfold aDeleteV in Hrun, Hc.
  destruct (alookup k (contents s)) as [v|] eqn:Hk; simpl in Hrun, Hc.
  - split; [done|]. split; [done|]. rewrite Hc. by apply alookup_aremove_eq.
  - split; [done|]. rewrite aremove_absent by done. split; [done|]. by rewrite Hc.
Qed.

Lemma CacheNodeVariant_Delete_returns_the_value_witness :
  ∃ s', CacheNodeVariant.Delete "b" demo2 = Ok ("2"%string, true) s'
      ∧ contents s' = [("a", "1")]%string.
Proof.
  destruct (CacheNodeVariant_Delete_returns_the_value demo2 "b" demo2_reachableV)
    as (s' & Hrun & Hc & _).
  exists s'. split; [exact Hrun|]. rewrite Hc. vm_compute. reflexivity.
Defined.

(** X18 (earlier revision keeps the invariant): on every state of a cache of
    the earlier revision, the integrity invariant holds and
    [verifyIntegrity] returns nil, and each of its [Get], [Set] and [Delete]
    returns and leaves such a state. *)
Theorem CacheNodeVariant_keeps_integrity (s : State) :
  reachableV s →
  sound s
  ∧ (∀ k, ∃ r s', CacheNodeVariant.Get k s = Ok r s' ∧ sound s')
  ∧ (∀ k v, ∃ r s', Set_ k v s = Ok r s' ∧ sound s')
  ∧ (∀ k, ∃ r s', CacheNodeVariant.Delete k s = Ok r s' ∧ sound s').
Proof.
  intros Hr. destruct (reachableV_Coh _ Hr) as (ns & HC & Hu).
  assert (∀ s' ns', Coh s' ns' → sound s') as Hs.
  { intros s' ns' HC'. split; [by eapply Coh_integrity|by eapply Coh_verifyIntegrity]. }
  split; [by eapply Hs|]. split; [|split].
  - intros k. destruct (GetV_run _ _ k HC Hu) as (s' & ns' & Hrun & HC' & _).
    eexists _, s'. split; [exact Hrun|by eapply Hs].
  - intros k v. destruct (Set_run _ _ k v HC Hu) as (s' & ns' & Hrun & HC' & _).
    eexists _, s'. split; [exact Hrun|by eapply Hs].
  - intros k. destruct (DeleteV_run _ _ k HC Hu) as (s' & ns' & Hrun & HC' & _).
    eexists _, s'. split; [exact Hrun|by eapply Hs].
Qed.

Lemma CacheNodeVariant_keeps_integrity_witness :
  sound demo2 ∧ ∃ r s', CacheNodeVariant.Get "a" demo2 = Ok r s' ∧ sound s'.
Proof.
  destruct (CacheNodeVariant_keeps_integrity demo2 demo2_reachableV) as (H1 & H2 & _).
  split; [exact H1|exact (H2 "a"%string)].
Defined.

(** ** The interactive demo *)

Lemma sizeLoop_reachable atoi rounds input out s input' out' :
  sizeLoop atoi rounds input out = Some (s, input', out') → reachable s.
Proof.
  revert input out. induction rounds as [|n IH]; intros input out; [done|].
  simpl. unfold sizeRound. destruct (scanText input) as [cmd rest].
  destruct (atoi cmd) as [i|]; [|apply IH].
  destruct (NewCache i) as [[msg]|s0] eqn:Hn; [apply IH|].
  intros [= -> _ _]. by eapply reach_NewCache.
Qed.

Lemma scanText_length input line rest :
  scanText input = (line, rest) → length rest ≤ length input.
Proof. destruct input; intros [= <- <-]; simpl; lia. Qed.

(** A round of the command loop on a reachable cache. *)
Lemma commandRound_reachable s input out :
  reachable s →
  match commandRound s input out with
  | Again s' input' _ => reachable s' ∧ length input' ≤ pred (length input)
                         ∧ (input = [] → s' = s)
  | Quit s' _ _ => s' = s ∧ input ≠ []
  | Panic _ _ => False
  end.
Proof.
  intros Hr. unfold commandRound.
  destruct input as [|cmd rest]; simpl.
  { repeat (case_decide; [done|]). done. }
  case_decide; [done|].
  case_decide.
  { destruct (scanText rest) as [key r1] eqn:E1.
    destruct (scanText r1) as [val r2] eqn:E2.
    destruct (Set_contents s key val Hr) as (s' & Hrun & _ & _ & Hr').
    rewrite Hrun. split; [done|]. split; [|done].
    apply scanText_length in E1, E2. lia. }
  case_decide.
  { destruct (scanText rest) as [key r1] eqn:E1.
    destruct (Get_contents s key Hr) as (s' & Hrun & _ & Hr').
    rewrite Hrun. destruct (aGet key (contents s)).1 as [val ex].
    apply scanText_length in E1. by destruct ex. }
  case_decide.
  { destruct (scanText rest) as [key r1] eqn:E1.
    destruct (Delete_contents s key Hr) as (s' & Hrun & _ & Hr').
    rewrite Hrun. apply scanText_length in E1.
    by destruct (aDelete key (contents s)).1. }
  split; [done|]. split; [lia|done].
Qed.

Lemma commandLoop_safe rounds s input out :
  reachable s →
  match commandLoop rounds s input out with
  | Some (Panicked _ _) => False
  | Some (Exited s' _ _) => reachable s'
  | None => True
  end.
Proof.
  revert s input out. induction rounds as [|n IH]; intros s input out Hr; [done|].
  simpl. pose proof (commandRound_reachable s input out Hr) as Hround.
  destruct (commandRound s input out) as [s' input' out'|s' input' out'|f out'].
  - apply IH, Hround.
  - by destruct Hround as [-> _].
  - done.
Qed.

Lemma commandLoop_exhausted rounds s out :
  commandLoop rounds s [] out = None.
Proof.
  revert out. induction rounds as [|n IH]; intros out; [done|].
  simpl. unfold commandRound. simpl. repeat (case_decide; [done|]). apply IH.
Qed.

Lemma sizeLoop_exhausted atoi rounds out :
  atoi ""%string = None → sizeLoop atoi rounds [] out = None.
Proof.
  intros Ha. revert out. induction rounds as [|n IH]; intros out; [done|].
  simpl. unfold sizeRound. simpl. rewrite Ha. apply IH.
Qed.

(** X19 (the demo never panics): whatever the input and whatever [Atoi]
    makes of it, no call that [runInteractiveMode] makes on the cache
    panics; and when it returns, the cache is one built by [NewCache] and
    used through its public functions, on which the integrity invariant
    holds and [verifyIntegrity] returns nil. *)
Theorem runInteractiveMode_never_panics (atoi : string → option Z) (rounds : nat)
    (input : list string) :
  match runInteractiveMode atoi rounds input with
  | Some (Panicked _ _) => False
  | Some (Exited s _ _) => reachable s ∧ sound s
  | None => True
  end.
Proof.
  unfold runInteractiveMode. cbv zeta.
  destruct (sizeLoop atoi rounds input _) as [[[s0 input0] out0]|] eqn:Hsize; [|done].
  apply sizeLoop_reachable in Hsize.
  pose proof (commandLoop_safe rounds s0 input0 out0 Hsize) as Hsafe.
  destruct (commandLoop rounds s0 input0 out0) as [[s' ? ?|? ?]|]; [|done..].
  split; [done|]. by apply reachable_sound.
Qed.

(** X20 (the demo on exhausted input): once standard input holds no more
    line, neither loop of [runInteractiveMode] ever ends: the first one keeps
    asking for a size (the empty string is no number), the second one keeps
    answering "Unknown command"; so without a line "q" the demo never
    returns. *)
Theorem runInteractiveMode_loops_on_exhausted_input (atoi : string → option Z)
    (rounds : nat) (s : State) (out : list string) :
  atoi ""%string = None →
  sizeLoop atoi rounds [] out = None
  ∧ commandLoop rounds s [] out = None
  ∧ runInteractiveMode atoi rounds [] = None.
Proof.
  intros Ha. split; [by apply sizeLoop_exhausted|].
  split; [apply commandLoop_exhausted|].
  unfold runInteractiveMode. cbv zeta. by rewrite sizeLoop_exhausted.
Qed.

Lemma runInteractiveMode_loops_on_exhausted_input_witness :
  runInteractiveMode atoiDigit 1000 [] = None.
Proof.
  apply (runInteractiveMode_loops_on_exhausted_input atoiDigit 1000 demo0 []).
  reflexivity.
Defined.

(** X21 (the size prompt): the first loop takes the first line that [Atoi]
    reads as a positive number, and creates the cache of this capacity; for
    every line before it, which is no number or a number [NewCache] refuses,
    it prints the prompt and one message, and asks again. *)
Theorem sizeLoop_takes_the_first_positive_number (atoi : string → option Z)
    (bad : list string) (line : string) (c : Z) (rest out : list string)
    (rounds : nat) :
  Forall (λ l, match atoi l with Some i => (i ≤ 0)%Z | None => True end) bad →
  atoi line = Some c → (0 < c)%Z → length bad < rounds →
  ∃ s out', NewCache c = inr s
    ∧ capacity (cache s) = c
    ∧ sizeLoop atoi rounds (bad ++ line :: rest) out = Some (s, rest, out')
    ∧ length out' = length out + 2 * length bad + 1.
Proof.
  intros Hbad Hline Hc. revert out rounds.
  induction Hbad as [|b bad Hb _ IH]; intros out rounds Hrounds.
  - destruct rounds as [|n]; [simpl in Hrounds; lia|].
    simpl. unfold sizeRound. simpl. rewrite Hline.
    unfold NewCache. rewrite decide_False by lia.
    eexists _, _. split; [done|]. split; [done|]. split; [done|].
    rewrite length_app. simpl. lia.
  - destruct rounds as [|n]; [simpl in Hrounds; lia|]. simpl in Hrounds.
    cbn [sizeLoop app]. unfold sizeRound. cbn [scanText].
    destruct (atoi b) as [i|].
    + unfold NewCache at 2. rewrite decide_True by done.
      destruct (IH (((out ++ [promptSize])
                       ++ ["Error Creating Cache: " +:+ "capacity must be greater than 0"]))
                   n ltac:(lia))
        as (s & out' & Hnew & Hcap & Hrun & Hlen).
      exists s, out'. split; [done|]. split; [done|]. split; [done|].
      rewrite Hlen, !length_app. simpl. lia.
    + destruct (IH ((out ++ [promptSize]) ++ [b +:+ " is not a number!"]) n ltac:(lia))
        as (s & out' & Hnew & Hcap & Hrun & Hlen).
      exists s, out'. split; [done|]. split; [done|]. split; [done|].
      rewrite Hlen, !length_app. simpl. lia.
Qed.

Lemma sizeLoop_takes_the_first_positive_number_witness :
  ∃ s out', NewCache 2 = inr s
    ∧ sizeLoop atoiDigit 3 ["x"; "0"; "2"; "q"]%string [] = Some (s, ["q"%string], out')
    ∧ length out' = 5.
Proof.
  destruct (sizeLoop_takes_the_first_positive_number atoiDigit ["x"; "0"]%string
              "2" 2 ["q"%string] [] 3)
    as (s & out' & Hnew & _ & Hrun & Hlen).
  - repeat constructor; vm_compute; discriminate.
  - reflexivity.
  - lia.
  - simpl. lia.
  - exists s, out'. repeat split; assumption.
Defined.

(** X22 (set, then get, through the prompts): on a cache in use, the lines
    "s", k, v, "g", k, "q" make the demo print the value just set, and
    return. *)
Theorem commandLoop_set_then_get_prints_the_value (s : State) (k v : string)
    (rest out : list string) (rounds : nat) :
  reachable s →
  ∃ s', commandLoop (3 + rounds) s
          ("s" :: k :: v :: "g" :: k :: "q" :: rest)%string out
        = Some (Exited s' rest
                  (out ++ [promptCommand; "Enter key: "; "Enter value: ";
                           "Value set successfully" +:+ nl;
                           promptCommand; "Enter key: ";
                           "Value: " +:+ v +:+ nl;
                           promptCommand]%string))
      ∧ reachable s'.
Proof.
  intros Hr.
  destruct (Set_contents s k v Hr) as (s1 & Hset & Hc1 & _ & Hr1).
  destruct (Get_contents s1 k Hr1) as (s2 & Hget & _ & Hr2).
  rewrite Hc1, aGet_aSet in Hget.
  exists s2. split; [|done].
  cbn [Nat.add commandLoop]. unfold commandRound at 1. cbn [scanText].
  rewrite decide_False by done. rewrite decide_True by done. rewrite Hset.
  unfold commandRound at 1. cbn [scanText].
  rewrite decide_False by done. rewrite decide_False by done.
  rewrite decide_True by done. rewrite Hget.
  unfold commandRound at 1. cbn [scanText].
  rewrite decide_True by done. by rewrite <-!app_assoc.
Qed.

Lemma commandLoop_set_then_get_prints_the_value_witness :
  ∃ s', commandLoop 3 demo2 ["s"; "c"; "3"; "g"; "c"; "q"]%string []
        = Some (Exited s' []
                  [promptCommand; "Enter key: "; "Enter value: ";
                   "Value set successfully" +:+ nl;
                   promptCommand; "Enter key: ";
                   "Value: " +:+ "3" +:+ nl;
                   promptCommand]%string).
Proof.
  destruct (commandLoop_set_then_get_prints_the_value demo2 "c" "3" [] [] 0
              demo2_reachable) as (s' & Hrun & _).
  exists s'. exact Hrun.
Defined.

Lemma commandLoop_never s input out n :
  reachable s → length input ≤ n →
  commandLoop (S n) s input out = None →
  ∀ m, commandLoop m s input out = None.
Proof.
  revert s input out. induction n as [|n IH]; intros s input out Hr Hlen Hrun m.
  - destruct input; [apply commandLoop_exhausted|simpl in Hlen; lia].
  - destruct m as [|m]; [done|].
    cbn [commandLoop] in Hrun |- *.
    pose proof (commandRound_reachable s input out Hr) as Hround.
    destruct (commandRound s input out) as [s' input' out'|s' input' out'|f out'];
      [|done..].
    destruct Hround as (Hr' & Hle & _).
    apply IH; [done|lia|done].
Qed.

(** X23 (the demo returns within its input, or never): on a cache in use,
    when the command loop has not returned after one round more than there
    are lines of input, it never returns. *)
Theorem commandLoop_returns_within_its_input_or_never (s : State)
    (input out : list string) :
  reachable s →
  commandLoop (S (length input)) s input out = None →
  ∀ rounds, commandLoop rounds s input out = None.
Proof. intros Hr Hrun. by apply (commandLoop_never s input out (length input)). Qed.

Lemma commandLoop_returns_within_its_input_or_never_witness :
  commandLoop 1000 demo2 ["g"; "a"; "x"]%string [] = None.
Proof.
  apply (commandLoop_returns_within_its_input_or_never demo2 _ [] demo2_reachable).
  vm_compute. reflexivity.
Defined.

(** ** Sequences of calls against the list model *)

Lemma perform_contents s c :
  reachable s →
  ∃ s', perform c s = Ok (aPerform (capacity (cache s)) c (contents s)).1 s'
      ∧ contents s' = (aPerform (capacity (cache s)) c (contents s)).2
      ∧ capacity (cache s') = capacity (cache s) ∧ reachable s'.
Proof.
  intros Hr. destruct c as [k|k v|k]; unfold perform; cbn [aPerform fst snd].
  - destruct (Get_contents s k Hr) as (s' & Hrun & Hc & Hr').
    exists s'. rewrite (bind_ok _ _ _ _ _ Hrun). split; [done|]. split; [done|].
    split; [|done]. apply (calls_reachable s s'); [|done].
    by eapply calls_Get; [apply calls_none|].
  - destruct (Set_contents s k v Hr) as (s' & Hrun & Hc & Hcap & Hr').
    exists s'. by rewrite (bind_ok _ _ _ _ _ Hrun).
  - destruct (Delete_contents s k Hr) as (s' & Hrun & Hc & Hr').
    exists s'. rewrite (bind_ok _ _ _ _ _ Hrun). split; [done|]. split; [done|].
    split; [|done]. apply (calls_reachable s s'); [|done].
    by eapply calls_Delete; [apply calls_none|].
Qed.

Lemma performAll_contents cs s :
  reachable s →
  ∃ s', performAll cs s = Ok (aPerformAll (capacity (cache s)) cs (contents s)).1 s'
      ∧ contents s' = (aPerformAll (capacity (cache s)) cs (contents s)).2
      ∧ reachable s'.
Proof.
  revert s. induction cs as [|c cs IH]; intros s Hr.
  - by exists s.
  - destruct (perform_contents s c Hr) as (s1 & Hrun & Hc & Hcap & Hr1).
    destruct (IH s1 Hr1) as (s2 & Hrun2 & Hc2 & Hr2).
    rewrite Hcap, Hc in Hrun2, Hc2.
    exists s2. cbn [performAll aPerformAll fst snd].
    rewrite (bind_ok _ _ _ _ _ Hrun). rewrite (bind_ok _ _ _ _ _ Hrun2).
    done.
Qed.

(** X24 (every call sequence follows the list model): on the cache that
    [NewCache(c)] returns, any sequence of calls of [Get], [Set] and [Delete]
    runs to its end without a panic and returns, call by call, what the
    list model returns: [Get] finds the pair and moves it to the front;
    [Set] of a present key replaces the value in place; [Set] of an absent
    key appends the pair, after dropping the last pair when the list holds
    [c] pairs; [Delete] takes the pair out.  The list read from the head is
    then the model's list, the invariant holds and [Len] is its length. *)
Theorem every_call_sequence_follows_the_list_model (c : Z) (s0 : State)
    (cs : list call) :
  NewCache c = inr s0 →
  ∃ s, performAll cs s0 = Ok (aPerformAll c cs []).1 s
     ∧ contents s = (aPerformAll c cs []).2
     ∧ sound s
     ∧ Len s = Ok (Z.of_nat (length (aPerformAll c cs []).2)) s.
Proof.
  intros Hnew. pose proof (reach_NewCache _ _ Hnew) as Hr.
  assert (capacity (cache s0) = c ∧ contents s0 = []) as [Hcap Hc0].
  { unfold NewCache in Hnew. case_decide; [done|]. by inversion Hnew. }
  destruct (performAll_contents cs s0 Hr) as (s & Hrun & Hc & Hr').
  rewrite Hcap, Hc0 in Hrun, Hc. exists s. split; [done|]. split; [done|].
  split; [by apply reachable_sound|]. rewrite <-Hc. by apply Len_contents.
Qed.

Lemma every_call_sequence_follows_the_list_model_witness :
  ∃ s, performAll [CallSet "a" "1"; CallSet "b" "2"; CallGet "a"; CallSet "c" "3";
                   CallDelete "a"; CallGet "b"]%string demo0
       = Ok [SetReturned false; SetReturned false; GetReturned "1" true;
             SetReturned false; DeleteReturned true; GetReturned "" false]%string s
     ∧ contents s = [("c", "3")]%string.
Proof.
  destruct (every_call_sequence_follows_the_list_model 2 demo0
              [CallSet "a" "1"; CallSet "b" "2"; CallGet "a"; CallSet "c" "3";
               CallDelete "a"; CallGet "b"]%string eq_refl)
    as (s & Hrun & Hc & _).
  exists s. split; [exact Hrun|exact Hc].
Defined.

(** X25 (why [NewCache] refuses capacity 0): on a cache struct with capacity
    0, no key and a nil head, [Set] of any pair finds the store as large as
    the capacity, goes on to evict the tail and reads [head.prev] of the nil
    head: it panics with a nil dereference. *)
Theorem Set_on_capacity_zero_panics (s : State) (k v : string) :
  locked (mutex (cache s)) = false → capacity (cache s) = 0%Z →
  store (cache s) = ∅ → head (cache s) = None →
  Set_ k v s = Fault NilDeref.
Proof.
  destruct s as [[m hd c st] hp]. simpl. intros Hl -> -> ->.
  unfold Set_, locking, Lock, bind. simpl. rewrite Hl.
  unfold Set_locked, bind, storeLookup, storeLen, getCapacity. simpl.
  rewrite lookup_empty. simpl. case_decide as Hz; [done|]. by destruct Hz.
Qed.

Lemma Set_on_capacity_zero_panics_witness :
  Set_ "a" "1" (mkState (mkCache (mkMutex false []) None 0 ∅) ∅) = Fault NilDeref.
Proof.
  apply (Set_on_capacity_zero_panics (mkState (mkCache (mkMutex false []) None 0 ∅) ∅));
    reflexivity.
Defined.

(** X26 (capacity 1): a cache of capacity 1 holds exactly the pair set last:
    whatever it held, after [Set(k, v)] the list is the one pair (k, v),
    [Len] is 1, and [Get(k)] returns (v, true). *)
Theorem capacity_one_holds_the_pair_set_last (s : State) (k v : string) :
  reachable s → capacity (cache s) = 1%Z →
  ∃ r s' s'', Set_ k v s = Ok r s'
    ∧ contents s' = [(k, v)]
    ∧ Len s' = Ok 1%Z s'
    ∧ Get k s' = Ok (v, true) s''.
Proof.
  intros Hr Hcap.
  destruct (Set_contents s k v Hr) as (s' & Hset & Hc & _ & Hr').
  destruct (reachable_capacity _ Hr) as [_ Hle]. rewrite Hcap in Hle, Hset, Hc.
  assert (contents s' = [(k, v)]) as Hc'.
  { rewrite Hc. unfold aSet.
    destruct (contents s) as [|[k0 v0] [|e es]]; simpl in *; [done| |lia].
    case_decide; simpl; [by subst|done]. }
  destruct (Get_contents s' k Hr') as (s'' & Hget & _).
  rewrite Hc' in Hget. unfold aGet in Hget. simpl in Hget.
  rewrite decide_True in Hget by done.
  eexists _, s', s''. split; [exact Hset|]. split; [done|]. split; [|done].
  by rewrite (Len_contents _ Hr'), Hc'.
Qed.

Lemma capacity_one_holds_the_pair_set_last_witness :
  ∃ r s' s'', Set_ "b" "2" (after (Set_ "a" "1") (mkState (mkCache (mkMutex false []) None 1 ∅) ∅))
              = Ok r s'
    ∧ contents s' = [("b", "2")]%string
    ∧ Get "b" s' = Ok ("2"%string, true) s''.
Proof.
  destruct (capacity_one_holds_the_pair_set_last
              (after (Set_ "a" "1") (mkState (mkCache (mkMutex false []) None 1 ∅) ∅))
              "b" "2")
    as (r & s' & s'' & Hset & Hc & _ & Hget).
  - apply (reach_Set "a" "1" false (mkState (mkCache (mkMutex false []) None 1 ∅) ∅));
      [by apply (reach_NewCache 1)|vm_compute; reflexivity].
  - vm_compute. reflexivity.
  - exists r, s', s''. repeat split; assumption.
Defined.
